(** * fulcrumproject/commons, package config: layered configuration resolution

    A shallow embedding of the configuration builder of package [config]
    (builder chain, ancestor .env locator, reflective environment mapper,
    log level table) and the properties its specification states about it.

    Go strings are byte strings: [string] (a list of [ascii] bytes).
    The process environment is a finite map from names to values.
    Go values reached through [reflect] are a tree of typed values. *)

From Stdlib Require Import ZArith NArith Ascii String List Lia Bool.
From stdpp Require Import base option list strings gmap.

Local Open Scope Z_scope.


(** ** Errors

    [errors.New]-style library errors carry a text; [*strconv.NumError]
    carries the failing function, the literal and the cause;
    [fmt.Errorf("<msg>: %w", inner)] wraps an inner error under a message. *)

Inductive NumErr := ErrSyntax | ErrRange.

Inductive error :=
| ErrText (msg : string)
| NumError (Func : string) (Num : string) (Err : NumErr)
| Wrapf (msg : string) (inner : error).

(** A Go [(value, error)] result of which callers use the value only when
    the error is nil. *)
Inductive Result (A : Type) :=
| Ok (a : A)
| Err (e : error).
Arguments Ok {A} a.
Arguments Err {A} e.

(** ** package strings *)

Module strings.

Definition byte (a : ascii) : N := N_of_ascii a.

(** [strings.Split(s, ",")]: the pieces of [s] between commas, in order;
    a string with n commas has n+1 pieces, empty ones included. *)
Fixpoint SplitComma (s : string) : list string :=
  match s with
  | EmptyString => [EmptyString]
  | String c r =>
      if (byte c =? 44)%N then EmptyString :: SplitComma r
      else match SplitComma r with
           | p :: ps => String c p :: ps
           | [] => [String c EmptyString]
           end
  end.

(** [strings.Join(parts, ",")]. *)
Fixpoint JoinComma (parts : list string) : string :=
  match parts with
  | [] => EmptyString
  | [p] => p
  | p :: ps => p +:+ String "," (JoinComma ps)
  end.

(** [strings.Count(s, ",")]. *)
Fixpoint CountComma (s : string) : nat :=
  match s with
  | EmptyString => 0%nat
  | String c r => ((if (byte c =? 44)%N then 1 else 0) + CountComma r)%nat
  end.

(** The [asciiSpace] table: tab, newline, vertical tab, form feed,
    carriage return, space. *)
Definition asciiSpace (a : ascii) : bool :=
  let c := byte a in
  ((c =? 9) || (c =? 10) || (c =? 11) || (c =? 12) || (c =? 13) || (c =? 32))%N.

(** [unicode.IsSpace] on the runes outside ASCII, by their UTF-8 encoding:
    U+0085 and U+00A0 take two bytes; U+1680, U+2000..U+200A, U+2028,
    U+2029, U+202F, U+205F and U+3000 take three. *)
Definition space2 (a b : ascii) : bool :=
  ((byte a =? 194) && ((byte b =? 133) || (byte b =? 160)))%N.

Definition space3 (a b c : ascii) : bool :=
  (((byte a =? 225) && (byte b =? 154) && (byte c =? 128))
   || ((byte a =? 226) && (byte b =? 128)
       && (((128 <=? byte c) && (byte c <=? 138))
           || (byte c =? 168) || (byte c =? 169) || (byte c =? 175)))
   || ((byte a =? 226) && (byte b =? 129) && (byte c =? 159))
   || ((byte a =? 227) && (byte b =? 128) && (byte c =? 128)))%N.

(** Drop leading white space runes. *)
Fixpoint TrimLeftSpace (s : string) : string :=
  match s with
  | EmptyString => EmptyString
  | String a r =>
      if asciiSpace a then TrimLeftSpace r
      else match r with
           | EmptyString => s
           | String b r' =>
               if space2 a b then TrimLeftSpace r'
               else match r' with
                    | EmptyString => s
                    | String c r'' =>
                        if space3 a b c then TrimLeftSpace r'' else s
                    end
           end
  end.

(** Drop trailing white space runes; the argument is the string reversed,
    so the bytes of a rune come last byte first. *)
Fixpoint TrimLeftSpaceRev (s : string) : string :=
  match s with
  | EmptyString => EmptyString
  | String a r =>
      if asciiSpace a then TrimLeftSpaceRev r
      else match r with
           | EmptyString => s
           | String b r' =>
               if space2 b a then TrimLeftSpaceRev r'
               else match r' with
                    | EmptyString => s
                    | String c r'' =>
                        if space3 c b a then TrimLeftSpaceRev r'' else s
                    end
           end
  end.

Definition TrimRightSpace (s : string) : string :=
  String.rev (TrimLeftSpaceRev (String.rev s)).

(** [strings.TrimSpace]: white space removed at both ends. *)
Definition TrimSpace (s : string) : string :=
  TrimRightSpace (TrimLeftSpace s).

End strings.

(** ** package strconv *)

Module strconv.

Definition maxUint64 : Z := 2 ^ 64 - 1.

(** The digit loop of [ParseUint] for base 10: [n] is the value read so
    far, [s0] the whole literal (for the error). *)
Fixpoint parseDigits (s0 : string) (maxVal : Z) (s : string) (n : Z) : Result Z :=
  match s with
  | EmptyString => Ok n
  | String a r =>
      let c := Z.of_N (strings.byte a) in
      let lower := Z.lor c 32 in
      match
        (if (48 <=? c) && (c <=? 57) then Some (c - 48)
         else if (97 <=? lower) && (lower <=? 122) then Some (lower - 97 + 10)
         else None)
      with
      | None => Err (NumError "ParseUint" s0 ErrSyntax)
      | Some d =>
          if 10 <=? d then Err (NumError "ParseUint" s0 ErrSyntax)
          else if maxUint64 / 10 + 1 <=? n then Err (NumError "ParseUint" s0 ErrRange)
          else
            let n10 := n * 10 in
            let n1 := (n10 + d) mod 2 ^ 64 in
            if (n1 <? n10) || (maxVal <? n1) then Err (NumError "ParseUint" s0 ErrRange)
            else parseDigits s0 maxVal r n1
      end
  end.

(** [strconv.ParseUint(s, 10, bitSize)] for [1 <= bitSize <= 64]. *)
Definition ParseUint (s : string) (bitSize : Z) : Result Z :=
  match s with
  | EmptyString => Err (NumError "ParseUint" s ErrSyntax)
  | _ => parseDigits s (2 ^ bitSize - 1) s 0
  end.

(** [strconv.ParseInt(s, 10, bitSize)] for [1 <= bitSize <= 64]. *)
Definition ParseInt (s : string) (bitSize : Z) : Result Z :=
  match s with
  | EmptyString => Err (NumError "ParseInt" s ErrSyntax)
  | String a r =>
      let neg := (strings.byte a =? 45)%N in
      let digits := if (strings.byte a =? 43)%N || neg then r else s in
      match ParseUint digits bitSize with
      | Err (NumError _ _ ErrSyntax) => Err (NumError "ParseInt" s ErrSyntax)
      | res =>
          let un := match res with Ok u => u | Err _ => 2 ^ bitSize - 1 end in
          let cutoff := 2 ^ (bitSize - 1) in
          if negb neg && (cutoff <=? un) then Err (NumError "ParseInt" s ErrRange)
          else if neg && (cutoff <? un) then Err (NumError "ParseInt" s ErrRange)
          else Ok (if neg then - un else un)
      end
  end.

(** [strconv.ParseBool]. *)
Definition ParseBool (s : string) : Result bool :=
  if bool_decide (s ∈ ["1"; "t"; "T"; "TRUE"; "true"; "True"]) then Ok true
  else if bool_decide (s ∈ ["0"; "f"; "F"; "FALSE"; "false"; "False"]) then Ok false
  else Err (NumError "ParseBool" s ErrSyntax).

End strconv.

(** ** Log levels (commons.go) *)

(** [slog.Level] is an [int]: Debug -4, Info 0, Warn 4, Error 8. *)
Module slog.
Definition Level := Z.
Definition LevelDebug : Level := -4.
Definition LevelInfo : Level := 0.
Definition LevelWarn : Level := 4.
Definition LevelError : Level := 8.
End slog.

Definition logLevel (value : string) : slog.Level :=
  if String.eqb value "silent" then 99
  else if String.eqb value "error" then slog.LevelError
  else if String.eqb value "warn" then slog.LevelWarn
  else if String.eqb value "info" || String.eqb value "" then slog.LevelInfo
  else slog.LevelInfo.

(** ** Reflected values

    What [loadEnvToStruct] sees of a record through package [reflect]: each
    field has a static descriptor ([reflect.StructField]) and a value
    ([reflect.Value]) of some kind. *)

Inductive IntKind := Int | Int8 | Int16 | Int32 | Int64.
Inductive UintKind := Uint | Uint8 | Uint16 | Uint32 | Uint64.
Inductive FloatKind := Float32 | Float64.

(** Kinds the mapper has no case for. [OSlice] is a slice whose elements
    are not of kind String. *)
Inductive OpaqueKind :=
| OUintptr | OComplex64 | OComplex128 | OArray | OChan | OFunc
| OInterface | OMap | OPointer | OSlice | OUnsafePointer.

Inductive Kind :=
| KBool | KInt (k : IntKind) | KUint (k : UintKind) | KFloat (k : FloatKind)
| KString | KSlice | KStruct | KOpaque (k : OpaqueKind).

(** [strconv.IntSize] on the 64-bit platforms. *)
Definition IntSize : Z := 64.

Definition intBits (k : IntKind) : Z :=
  match k with Int => IntSize | Int8 => 8 | Int16 => 16 | Int32 => 32 | Int64 => 64 end.

Definition uintBits (k : UintKind) : Z :=
  match k with Uint => IntSize | Uint8 => 8 | Uint16 => 16 | Uint32 => 32 | Uint64 => 64 end.

(** The static part of a field: name, whether it is exported, and its
    struct tag as the key/value pairs in the order they are written. *)
Record StructField := mkStructField {
  Name : string;
  Exported : bool;
  Tag : list (string * string)
}.

(** The value of a field. Integers are mathematical integers within the
    range of their kind; a float is its IEEE 754 binary64 bit pattern;
    [VDuration] is a [time.Duration] (kind Int64, nanoseconds); [VInt]
    is every other type of a signed integer kind; [VStrings] is a
    [[]string] or a named type over it; [VOpaque] stands for every kind the
    mapper does not look into, with its contents. A slice of a named string
    type has no representation here: its elements are of kind String, so
    the mapper tries to store a [[]string] in it, and [reflect.Value.Set]
    panics. *)
#[warnings="-register-all"]
Inductive Value :=
| VString (s : string)
| VBool (b : bool)
| VInt (k : IntKind) (n : Z)
| VDuration (n : Z)
| VUint (k : UintKind) (n : Z)
| VFloat (k : FloatKind) (bits : Z)
| VStrings (l : list string)
| VStruct (fields : list (StructField * Value))
| VOpaque (k : OpaqueKind) (contents : string).

(** A record value: its fields in declaration order. *)
Abbreviation Struct := (list (StructField * Value)).

(** [reflect.Value.Kind]. *)
Definition KindOf (v : Value) : Kind :=
  match v with
  | VString _ => KString
  | VBool _ => KBool
  | VInt k _ => KInt k
  | VDuration _ => KInt Int64
  | VUint k _ => KUint k
  | VFloat k _ => KFloat k
  | VStrings _ => KSlice
  | VStruct _ => KStruct
  | VOpaque OSlice _ => KSlice
  | VOpaque k _ => KOpaque k
  end.

(** [fieldValue.CanSet()]: the record is addressable, so a field can be
    set exactly when it is exported. *)
Definition CanSet (f : StructField) : bool := Exported f.

(** [field.Tag.Lookup(tag)]: the value of the first pair with that key. *)
Fixpoint Lookup (tags : list (string * string)) (key : string) : option string :=
  match tags with
  | [] => None
  | (k, v) :: rest => if String.eqb k key then Some v else Lookup rest key
  end.

(** [reflect.Value.SetInt] and [SetUint] convert the 64-bit argument to the
    field's kind, which keeps the low bits. *)
Definition SetInt (k : IntKind) (x : Z) : Z :=
  let w := intBits k in (x + 2 ^ (w - 1)) mod 2 ^ w - 2 ^ (w - 1).

Definition SetUint (k : UintKind) (x : Z) : Z := x mod 2 ^ uintBits k.

(** ** The process environment *)

Abbreviation Env := (gmap string string).

(** [os.Getenv]: the value of the variable, empty when it is not set. *)
Definition Getenv (env : Env) (key : string) : string := default "" (env !! key).

(** ** Library operations taken as given

    The float and duration parsers, the JSON decoder and the tag-driven
    validator are library code; the development is parametric in them.
    [json_Unmarshal data cfg] is the record after decoding [data] onto it
    and the decoder's error; [validator_Struct cfg] is the error of
    [validator.New().Struct(cfg)], the validation the record declares
    through its [validate] tags. *)
Record Library := mkLibrary {
  time_ParseDuration : string -> Result Z;
  strconv_ParseFloat : string -> Result Z;
  float32_of : Z -> Z;
  json_Unmarshal : string -> Struct -> Struct * option error;
  validator_Struct : Struct -> option error
}.

(** [reflect.Value.SetFloat]: a float32 field stores the value rounded. *)
Definition SetFloat (lib : Library) (k : FloatKind) (x : Z) : Z :=
  match k with Float32 => float32_of lib x | Float64 => x end.

(** ** The environment mapper: loadEnvToStruct *)

Section Mapper.

Variable lib : Library.
Variable env : Env.
Variables prefix tag : string.

(** The [switch fieldValue.Kind()] of [loadEnvToStruct]: the new value of
    the field, or the coercion error. Kinds without a case keep their
    value. *)
Definition coerce (envVar envValue : string) (v : Value) : Result Value :=
  match v with
  | VString _ => Ok (VString envValue)
  | VDuration _ =>
      match time_ParseDuration lib envValue with
      | Ok duration => Ok (VDuration duration)
      | Err e => Err (Wrapf ("invalid duration value for " +:+ envVar) e)
      end
  | VInt k _ =>
      match strconv.ParseInt envValue 64 with
      | Ok val => Ok (VInt k (SetInt k val))
      | Err e => Err (Wrapf ("invalid integer value for " +:+ envVar) e)
      end
  | VUint k _ =>
      match strconv.ParseUint envValue 64 with
      | Ok val => Ok (VUint k (SetUint k val))
      | Err e => Err (Wrapf ("invalid unsigned integer value for " +:+ envVar) e)
      end
  | VFloat k _ =>
      match strconv_ParseFloat lib envValue with
      | Ok val => Ok (VFloat k (SetFloat lib k val))
      | Err e => Err (Wrapf ("invalid float value for " +:+ envVar) e)
      end
  | VBool _ =>
      match strconv.ParseBool envValue with
      | Ok val => Ok (VBool val)
      | Err e => Err (Wrapf ("invalid boolean value for " +:+ envVar) e)
      end
  | VStrings _ =>
      Ok (VStrings (map strings.TrimSpace (strings.SplitComma envValue)))
  | VStruct _ | VOpaque _ _ => Ok v
  end.

(** The part of the loop body after the recursion: tag lookup,
    environment lookup, coercion. The field keeps its value when the tag
    is missing or empty, when the variable is unset or empty, and when
    the coercion fails. *)
Definition setFromEnv (f : StructField) (v : Value) : Value * option error :=
  match Lookup (Tag f) tag with
  | None => (v, None)
  | Some envVar =>
      if String.eqb envVar "" then (v, None)
      else
        let envValue := Getenv env (prefix +:+ envVar) in
        if String.eqb envValue "" then (v, None)
        else match coerce envVar envValue v with
             | Ok v' => (v', None)
             | Err e => (v, Some e)
             end
  end.

(** One iteration of the loop of [loadEnvToStruct] on field [f] with
    value [v]: the value it leaves in the field, and the error it returns
    with, if any. A field of kind Struct is first mapped recursively (the
    inner [fix] is the loop of the recursive call). *)
Fixpoint loadField (f : StructField) (v : Value) {struct v} : Value * option error :=
  if negb (CanSet f) then (v, None)
  else
    let '(v1, sub_err) :=
      match v with
      | VStruct sub =>
          let '(sub', e) :=
            (fix loop (fs : Struct) : Struct * option error :=
               match fs with
               | [] => ([], None)
               | (f', v') :: rest =>
                   match loadField f' v' with
                   | (v'', Some e) => ((f', v'') :: rest, Some e)
                   | (v'', None) =>
                       let '(rest', e) := loop rest in ((f', v'') :: rest', e)
                   end
               end) sub in
          (VStruct sub', e)
      | _ => (v, None)
      end in
    match sub_err with
    | Some e => (v1, Some (Wrapf ("error loading sub config field " +:+ Name f) e))
    | None => setFromEnv f v1
    end.

(** [loadEnvToStruct(target, prefix, tag)] on the record [target] points
    to: the record as the call leaves it (it is changed in place, also
    when the call fails) and the returned error. *)
Fixpoint loadEnvToStruct (fs : Struct) : Struct * option error :=
  match fs with
  | [] => ([], None)
  | (f, v) :: rest =>
      match loadField f v with
      | (v', Some e) => ((f, v') :: rest, Some e)
      | (v', None) =>
          let '(rest', e) := loadEnvToStruct rest in ((f, v') :: rest', e)
      end
  end.

End Mapper.

(** ** The world outside the process

    Directories are rooted paths, held as the list of their components
    below the root (the root is the empty list), as [os.Getwd] returns them.
    [filepath.Dir] drops the last component and maps the root to itself.
    A candidate file is named by the directory it is looked up in and the
    candidate name: [filepath.Join(dir, fileName)]. *)

Abbreviation Path := (list string).

Definition filepath_Dir (dir : Path) : Path := removelast dir.

Definition filepath_Join (dir : Path) (fileName : string) : Path * string :=
  (dir, fileName).

(** What the run leaves behind besides the environment: the [slog.Info]
    lines and the calls of the validator, in order. *)
Inductive Event :=
| LogLoading (file : Path * string)
| LogNoneFound
| Validated (cfg : Struct).

(** The state a resolution runs in. [w_cwd] is the result of [os.Getwd];
    [w_stat p] tells whether [os.Stat p] succeeds; [w_dotenv p] is what
    the dotenv reader makes of the file at [p]: its assignments, or [None]
    when it cannot be read or parsed; [w_readFile] is [os.ReadFile]. Only
    the environment and the trace change during a run. *)
Record World := mkWorld {
  w_env : Env;
  w_cwd : Result Path;
  w_stat : Path * string -> bool;
  w_dotenv : Path * string -> option Env;
  w_readFile : string -> Result string;
  w_trace : list Event
}.

Definition set_env (w : World) (env : Env) : World :=
  mkWorld env (w_cwd w) (w_stat w) (w_dotenv w) (w_readFile w) (w_trace w).

Definition emit (w : World) (ev : Event) : World :=
  mkWorld (w_env w) (w_cwd w) (w_stat w) (w_dotenv w) (w_readFile w) (w_trace w ++ [ev]).

(** [godotenv.Load(envPath)], the dotenv library's loader, by its
    documented behaviour (the precedence rule of the specification): it
    reads the file's assignments and sets each key that the environment
    does not hold yet; a key already present, even with an empty value, is
    never overwritten; a file that cannot be read or parsed changes nothing
    and is an error. The result is the new environment, or [None] for the
    error. *)
Definition godotenv_Load (w : World) (envPath : Path * string) : option Env :=
  match w_dotenv w envPath with
  | Some assignments => Some (w_env w ∪ assignments)
  | None => None
  end.

(** ** The ancestor locator: loadEnvFromAncestors *)

(** What the inner loop does with one candidate path: load it when
    [os.Stat] finds it and the loader accepts it. The state is the world
    and the [found] flag. *)
Definition tryPath (st : World * bool) (envPath : Path * string) : World * bool :=
  let '(w, found) := st in
  if w_stat w envPath then
    match godotenv_Load w envPath with
    | Some env' => (emit (set_env w env') (LogLoading envPath), true)
    | None => st
    end
  else st.

(** The body of the inner loop for one candidate name. *)
Definition tryFile (dir : Path) (st : World * bool) (fileName : string) : World * bool :=
  tryPath st (filepath_Join dir fileName).

(** The outer [for] loop, from directory [dir]. Each unit of [fuel] pays
    for one iteration; [None] means the fuel ran out before the loop
    reached its [break]. *)
Fixpoint walk (fuel : nat) (filesToTry : list string) (dir : Path) (st : World * bool)
  : option (World * bool) :=
  match fuel with
  | O => None
  | S fuel' =>
      let st' := fold_left (tryFile dir) filesToTry st in
      let parentDir := filepath_Dir dir in
      if bool_decide (parentDir = dir) then Some st'
      else walk fuel' filesToTry parentDir st'
  end.

(** [loadEnvFromAncestors(filesToTry...)]: the world it leaves and the
    error it returns, when the loop ends within [fuel] iterations. *)
Definition loadEnvFromAncestors (fuel : nat) (filesToTry : list string) (w : World)
  : option (World * option error) :=
  match w_cwd w with
  | Err e => Some (w, Some e)
  | Ok currentDir =>
      match walk fuel filesToTry currentDir (w, false) with
      | None => None
      | Some (w', found) =>
          Some (if found then w' else emit w' LogNoneFound, None)
      end
  end.

(** ** The builder *)

(** [Builder[T]] for a record pointer type [T]: [config] is the record the
    pointer refers to, the single instance every overlay changes in place.
    The zero value of [T] is the nil pointer, [None] below. *)
Record Builder := mkBuilder {
  config : Struct;
  err : option error;
  envPrefix : string;
  envTag : string;
  envFiles : list string
}.

Definition BuilderOption := Builder -> Builder.

Definition WithEnvPrefix (prefix : string) : BuilderOption :=
  fun b => mkBuilder (config b) (err b) prefix (envTag b) (envFiles b).

Definition WithEnvTag (tag : string) : BuilderOption :=
  fun b => mkBuilder (config b) (err b) (envPrefix b) tag (envFiles b).

Definition WithEnvFiles (files : list string) : BuilderOption :=
  fun b => mkBuilder (config b) (err b) (envPrefix b) (envTag b) files.

Definition New (defaultConfig : Struct) (opts : list BuilderOption) : Builder :=
  fold_left (fun b opt => opt b) opts (mkBuilder defaultConfig None "" "env" []).

Definition set_err (b : Builder) (cfg : Struct) (e : error) : Builder :=
  mkBuilder cfg (Some e) (envPrefix b) (envTag b) (envFiles b).

Definition set_config (b : Builder) (cfg : Struct) : Builder :=
  mkBuilder cfg (err b) (envPrefix b) (envTag b) (envFiles b).

Section Builder.

Variable lib : Library.

(** [b.LoadFile(filepath)]; [None] is the nil pointer. *)
Definition LoadFile (filepath : option string) (b : Builder) (w : World) : Builder * World :=
  match err b with
  | Some _ => (b, w)
  | None =>
      match filepath with
      | None => (b, w)
      | Some path =>
          if String.eqb path "" then (b, w)
          else match w_readFile w path with
               | Err e => (set_err b (config b) (Wrapf "failed to read config file" e), w)
               | Ok data =>
                   match json_Unmarshal lib data (config b) with
                   | (cfg, Some e) => (set_err b cfg (Wrapf "failed to parse config file" e), w)
                   | (cfg, None) => (set_config b cfg, w)
                   end
               end
      end
  end.

(** [b.WithEnv()], when the locator's loop ends within [fuel] iterations. *)
Definition WithEnv (fuel : nat) (b : Builder) (w : World) : option (Builder * World) :=
  match err b with
  | Some _ => Some (b, w)
  | None =>
      match loadEnvFromAncestors fuel (envFiles b) w with
      | None => None
      | Some (w', Some e) =>
          Some (set_err b (config b) (Wrapf "failed to load environment variables" e), w')
      | Some (w', None) =>
          match loadEnvToStruct lib (w_env w') (envPrefix b) (envTag b) (config b) with
          | (cfg, Some e) =>
              Some (set_err b cfg (Wrapf "failed to override configuration from environment" e), w')
          | (cfg, None) => Some (set_config b cfg, w')
          end
      end
  end.

(** [b.Build()]: the returned pair and the world with the validator's
    call recorded. *)
Definition Build (b : Builder) (w : World) : (option Struct * option error) * World :=
  match err b with
  | Some e => ((None, Some e), w)
  | None =>
      let w' := emit w (Validated (config b)) in
      match validator_Struct lib (config b) with
      | Some e => ((None, Some (Wrapf "invalid configuration" e)), w')
      | None => ((Some (config b), None), w')
      end
  end.

(** A step of the fluent chain before [Build]. *)
Inductive ChainOp :=
| OpLoadFile (filepath : option string)
| OpWithEnv (fuel : nat).

Definition runOp (op : ChainOp) (st : Builder * World) : option (Builder * World) :=
  match op with
  | OpLoadFile p => Some (LoadFile p (fst st) (snd st))
  | OpWithEnv fuel => WithEnv fuel (fst st) (snd st)
  end.

Fixpoint runChain (ops : list ChainOp) (st : Builder * World) : option (Builder * World) :=
  match ops with
  | [] => Some st
  | op :: rest =>
      match runOp op st with
      | Some st' => runChain rest st'
      | None => None
      end
  end.

End Builder.

(** ** Scenarios of the test suite

    Stand-ins for the library operations and the records, environments and
    file systems of the package's tests, to run the model on. *)

Definition field (name : string) (tags : list (string * string)) : StructField :=
  mkStructField name true tags.

(** A decoder that accepts only the empty object, a validator that rejects
    a record whose first field is an empty string (a [required] tag), and
    parsers that reject every literal. *)
Definition testLibrary : Library :=
  {| time_ParseDuration := fun s => Err (ErrText "time: invalid duration");
     strconv_ParseFloat := fun s => Err (NumError "ParseFloat" s ErrSyntax);
     float32_of := fun bits => bits;
     json_Unmarshal := fun data cfg =>
       if String.eqb data "{}" then (cfg, None)
       else (cfg, Some (ErrText "invalid character 'i' looking for beginning of object key string"));
     validator_Struct := fun cfg =>
       match cfg with
       | (_, VString EmptyString) :: _ => Some (ErrText "failed on the 'required' tag")
       | _ => None
       end |}.

(** [newTestConfig()]; 4607182418800017408 is the float64 1.0. *)
Definition testConfig : Struct :=
  [ (field "Name" [("json", "name"); ("env", "NAME")], VString "test-app");
    (field "Port" [("json", "port"); ("env", "PORT")], VInt Int 8080);
    (field "Enabled" [("json", "enabled"); ("env", "ENABLED")], VBool true);
    (field "Factor" [("json", "factor"); ("env", "FACTOR")], VFloat Float64 4607182418800017408);
    (field "MaxConns" [("json", "max_conns"); ("env", "MAX_CONNS")], VUint Uint 100);
    (field "Tags" [("json", "tags"); ("env", "TAGS")], VStrings ["default"]) ].

(** [TestConfigWithNested], with an outer record around it. *)
Definition nestedConfig : Struct :=
  [ (field "Name" [("env", "NAME")], VString "test");
    (field "Nested" [], VStruct
       [ (field "Value" [("env", "VALUE")], VString "default");
         (field "Inner" [], VStruct
            [ (field "Port" [("env", "PORT")], VInt Int 8080);
              (field "Name" [("env", "NAME")], VString "inner") ]) ]);
    (field "Last" [("env", "LAST")], VString "last") ].

(** A process in /home/app with two candidate files in its working
    directory and one in /home, and one readable JSON file. *)
Definition testWorld : World :=
  {| w_env := {[ "TEST_NAME" := "name-from-actual-env" ]};
     w_cwd := Ok ["home"; "app"];
     w_stat := fun p =>
       bool_decide (p ∈ [ (["home"; "app"], ".env.test1"); (["home"; "app"], ".env.test2");
                          (["home"], ".env.test1"); (["home"], ".env.bad") ]);
     w_dotenv := fun p =>
       if bool_decide (p = (["home"; "app"], ".env.test1"))
       then Some {[ "TEST_NAME" := "name-from-file1"; "TEST_PORT" := "1111" ]}
       else if bool_decide (p = (["home"; "app"], ".env.test2"))
       then Some {[ "TEST_PORT" := "2222"; "TEST_FACTOR" := "7.7" ]}
       else if bool_decide (p = (["home"], ".env.test1"))
       then Some {[ "TEST_PORT" := "3333"; "TEST_TAGS" := "a, b" ]}
       else None;
     w_readFile := fun path =>
       if String.eqb path "config.json" then Ok "{}"
       else if String.eqb path "broken.json" then Ok "{invalid json}"
       else Err (ErrText "open: no such file or directory");
     w_trace := [] |}.

(** The builder of the error propagation test: a default record, then a
    file that does not exist. *)
Definition poisonedBuilder : Builder :=
  fst (LoadFile testLibrary (Some "/nonexistent/file.json") (New testConfig []) testWorld).


(** The field a path of field indices leads to, through nested records. *)
Fixpoint fieldAt (path : list nat) (fs : Struct) : option (StructField * Value) :=
  match path with
  | [] => None
  | [i] => fs !! i
  | i :: rest =>
      match fs !! i with
      | Some (_, VStruct sub) => fieldAt rest sub
      | _ => None
      end
  end.

(** An error wrapped once for each record on the way out of the recursion,
    outermost field first. *)
Definition wrapPath (names : list string) (e : error) : error :=
  fold_right (fun name inner => Wrapf ("error loading sub config field " +:+ name) inner) e names.

(** The message prefixes of the coercion errors; each ends in the
    annotation's name. *)
Definition coercionMsg (v : Value) (envVar : string) : string :=
  match v with
  | VDuration _ => "invalid duration value for " +:+ envVar
  | VInt _ _ => "invalid integer value for " +:+ envVar
  | VUint _ _ => "invalid unsigned integer value for " +:+ envVar
  | VFloat _ _ => "invalid float value for " +:+ envVar
  | VBool _ => "invalid boolean value for " +:+ envVar
  | _ => EmptyString
  end.

(** [AbortsAt fs path f v fs']: in the depth-first walk of [fs] in
    declaration order, the settable field [f] with value [v], which is not
    a record, is reached below the record fields named [path] (outermost
    first) after every field before it was mapped without error; [fs'] is
    [fs] with those earlier fields mapped and everything from [f] on,
    at every level, as it was. *)
Inductive AbortsAt (lib : Library) (env : Env) (prefix tag : string)
  : Struct -> list string -> StructField -> Value -> Struct -> Prop :=
| abort_here pre pre' f v post :
    loadEnvToStruct lib env prefix tag pre = (pre', None) ->
    CanSet f = true ->
    KindOf v <> KStruct ->
    AbortsAt lib env prefix tag (pre ++ (f, v) :: post) [] f v (pre' ++ (f, v) :: post)
| abort_inside pre pre' g sub sub' post path f v :
    loadEnvToStruct lib env prefix tag pre = (pre', None) ->
    CanSet g = true ->
    AbortsAt lib env prefix tag sub path f v sub' ->
    AbortsAt lib env prefix tag
      (pre ++ (g, VStruct sub) :: post) (Name g :: path) f v
      (pre' ++ (g, VStruct sub') :: post).

(** A record field that carries an annotation of its own. *)
Definition annotatedNested : Struct :=
  [ (field "Nested" [("env", "NESTED")],
     VStruct [ (field "Value" [("env", "VALUE")], VString "default") ]) ].

(** A field of a narrow integer kind. *)
Definition narrowConfig : Struct :=
  [ (field "Level" [("env", "LEVEL")], VInt Int8 7);
    (field "Retries" [("env", "RETRIES")], VUint Uint8 3) ].

(** ** Base-10 literals

    What the specification means by a base-10 literal, to compare the
    parsers with. [digitsValue s n] reads the digits of [s] after the value
    [n]; it is [None] when a byte of [s] is not a decimal digit. *)
Fixpoint digitsValue (s : string) (n : Z) : option Z :=
  match s with
  | EmptyString => Some n
  | String a r =>
      let c := Z.of_N (strings.byte a) in
      if (48 <=? c) && (c <=? 57) then digitsValue r (n * 10 + (c - 48)) else None
  end.

(** An unsigned literal: one or more decimal digits. *)
Definition decimalUint (s : string) : option Z :=
  match s with
  | EmptyString => None
  | _ => digitsValue s 0
  end.

(** A signed literal: an optional sign, then an unsigned literal. *)
Definition decimalInt (s : string) : option Z :=
  match s with
  | EmptyString => None
  | String a r =>
      if (strings.byte a =? 45)%N then Z.opp <$> decimalUint r
      else if (strings.byte a =? 43)%N then decimalUint r
      else decimalUint s
  end.

(** The environment of the coercion failure scenario, and the record the
    mapper leaves behind in it. *)
Definition failingEnv : Env :=
  {[ "NAME" := "n"; "VALUE" := "v"; "PORT" := "not-an-int"; "LAST" := "zzz" ]}.

Definition nestedAfterFailure : Struct :=
  [ (field "Name" [("env", "NAME")], VString "n");
    (field "Nested" [], VStruct
       [ (field "Value" [("env", "VALUE")], VString "v");
         (field "Inner" [], VStruct
            [ (field "Port" [("env", "PORT")], VInt Int 8080);
              (field "Name" [("env", "NAME")], VString "inner") ]) ]);
    (field "Last" [("env", "LAST")], VString "last") ].

(** ** The search order of the locator *)

(** A directory and its parents, nearest first, the root last. *)
Fixpoint ancestorsN (n : nat) (dir : Path) : list Path :=
  dir :: match n with
         | O => []
         | S n' => ancestorsN n' (filepath_Dir dir)
         end.

Definition ancestors (dir : Path) : list Path := ancestorsN (length dir) dir.

(** The candidate paths in the order the locator tries them: directory by
    directory from the working directory up, and within a directory in the
    order of the candidate names. *)
Definition searchOrder (dir : Path) (filesToTry : list string) : list (Path * string) :=
  flat_map (fun d => map (filepath_Join d) filesToTry) (ancestors dir).

(** The candidate at [p] is found, loads, and assigns [v] to [k]. *)
Definition defines (w : World) (p : Path * string) (k v : string) : Prop :=
  w_stat w p = true /\ exists assignments, w_dotenv w p = Some assignments /\ assignments !! k = Some v.

(** The locator run of the env files test. *)
Definition locatedWorld : option (World * option error) :=
  loadEnvFromAncestors 3 [".env.test1"; ".env.test2"] testWorld.

(** A process whose working directory has been removed. *)
Definition lostWorld : World :=
  mkWorld (w_env testWorld) (Err (ErrText "getwd: no such file or directory"))
    (w_stat testWorld) (w_dotenv testWorld) (w_readFile testWorld) (w_trace testWorld).

(** ** More of the mapper's vocabulary *)

(** A value with its contents erased: what is left is its type, and for a
    record its field descriptors and the types of its fields. *)
Fixpoint skeleton (v : Value) : Value :=
  match v with
  | VString _ => VString EmptyString
  | VBool _ => VBool false
  | VInt k _ => VInt k 0
  | VDuration _ => VDuration 0
  | VUint k _ => VUint k 0
  | VFloat k _ => VFloat k 0
  | VStrings _ => VStrings []
  | VStruct fs => VStruct (map (fun fv => let '(f, v') := fv in (f, skeleton v')) fs)
  | VOpaque k _ => VOpaque k EmptyString
  end.

(** The mapper gets to the field at [path]: that field and every record
    field on the way to it can be set. *)
Fixpoint settableAt (path : list nat) (fs : Struct) : bool :=
  match path with
  | [] => false
  | [i] =>
      match fs !! i with
      | Some (f, _) => CanSet f
      | None => false
      end
  | i :: rest =>
      match fs !! i with
      | Some (f, VStruct sub) => CanSet f && settableAt rest sub
      | _ => false
      end
  end.

(** A candidate path whose file is found and loads. *)
Definition loads (w : World) (p : Path * string) : Prop :=
  w_stat w p = true /\ is_Some (w_dotenv w p).

(** The three options the package provides. *)
Inductive ProvidedOption : BuilderOption -> Prop :=
| provided_prefix prefix : ProvidedOption (WithEnvPrefix prefix)
| provided_tag tag : ProvidedOption (WithEnvTag tag)
| provided_files files : ProvidedOption (WithEnvFiles files).

(** ** commons.go: the Log and DB records *)

Record Log := mkLog { Format : string; Level : string }.

Definition Log_GetLogLevel (c : Log) : slog.Level := logLevel (Level c).

Record DB := mkDB { DSN : string; LogLevel : string; LogFormat : string }.

Definition DB_GetLogLevel (c : DB) : slog.Level := logLevel (LogLevel c).

(** ** logging/gorm.go

    A [slog] handler built by [slog.NewJSONHandler] or [slog.NewTextHandler]
    with [HandlerOptions{Level: level}]: its format and its minimum level.
    It handles a record when the record's level is at least the minimum. *)
Inductive HandlerFormat := JSONHandler | TextHandler.

Record Handler := mkHandler { h_format : HandlerFormat; h_level : slog.Level }.

Definition Enabled (h : Handler) (level : slog.Level) : bool := h_level h <=? level.

(** [NewGormLogger(cfg)]: the handler the gorm logger is built around. *)
Definition NewGormLogger (cfg : DB) : Handler :=
  let level := DB_GetLogLevel cfg in
  if String.eqb (LogFormat cfg) "json" then mkHandler JSONHandler level
  else mkHandler TextHandler level.

(** ** auth/auth.go *)

Module auth.

Definition Role := string.

Definition RoleAdmin : Role := "admin".
Definition RoleParticipant : Role := "participant".
Definition RoleAgent : Role := "agent".

(** [Role.Validate]. *)
Definition Role_Validate (r : Role) : option error :=
  if String.eqb r RoleAdmin || String.eqb r RoleParticipant || String.eqb r RoleAgent
  then None
  else Some (ErrText ("invalid auth role: " +:+ r)).

Section Identity.

(** [properties.UUID]; the scope holds pointers to it, [None] is nil. *)
Variable UUID : Type.

Record IdentityScope := mkIdentityScope {
  ParticipantID : option UUID;
  AgentID : option UUID
}.

Record Identity := mkIdentity {
  ID : UUID;
  IdentityName : string;
  IdentityRole : Role;
  Scope : IdentityScope
}.

(** [Identity.HasRole]. *)
Definition HasRole (m : Identity) (role : Role) : bool := String.eqb (IdentityRole m) role.

(** [Identity.Validate]. *)
Definition Identity_Validate (m : Identity) : option error :=
  if String.eqb (IdentityRole m) RoleParticipant then
    match ParticipantID (Scope m) with
    | None => Some (ErrText "participant role requires participant id")
    | Some _ => None
    end
  else if String.eqb (IdentityRole m) RoleAgent then
    match ParticipantID (Scope m) with
    | None => Some (ErrText "agent role requires participant id")
    | Some _ =>
        match AgentID (Scope m) with
        | None => Some (ErrText "agent role requires agent id")
        | Some _ => None
        end
    end
  else None.

(** [AllwaysMatchObjectScope.Matches]. *)
Definition AllwaysMatch_Matches (identity : Identity) : bool := true.

End Identity.

End auth.

(** A record without a float field, for runs with the stand-in library. *)
Definition serviceConfig : Struct :=
  [ (field "Name" [("json", "name"); ("env", "NAME")], VString "test-app");
    (field "Port" [("json", "port"); ("env", "PORT")], VInt Int 8080);
    (field "Tags" [("json", "tags"); ("env", "TAGS")], VStrings ["default"]) ].

Definition serviceBuilder : Builder :=
  New serviceConfig [WithEnvPrefix "TEST_"; WithEnvTag "env";
                     WithEnvFiles [".env.test1"; ".env.test2"]].

(** The records of the struct processing tests in one: a field that is not
    exported, one without the tag and one with an empty tag. *)
Definition passedOverConfig : Struct :=
  [ (field "Name" [("env", "NAME")], VString "test");
    (mkStructField "unexportedField" false [("env", "UNEXPORTED")], VString "default");
    (field "NoTag" [], VString "default-no-tag");
    (field "EmptyTag" [("env", "")], VString "default-empty-tag") ].

(** The world and the builder after [serviceBuilder.WithEnv()] in
    [testWorld]. *)
Definition serviceWorld : World :=
  fst (fold_left tryPath (searchOrder ["home"; "app"] [".env.test1"; ".env.test2"])
         (testWorld, false)).

Definition serviceAfterEnv : Builder :=
  set_config serviceBuilder
    (fst (loadEnvToStruct testLibrary (w_env serviceWorld) "TEST_" "env" serviceConfig)).

(** * Properties *)

(** ** Library models on the literals of the tests *)

Example split_two : strings.SplitComma "a,,b" = ["a"; ""; "b"].
Proof. reflexivity. Qed.

Example trim_both : strings.TrimSpace "  tag2 " = "tag2".
Proof. reflexivity. Qed.

Example parse_int_neg : strconv.ParseInt "-128" 8 = Ok (-128).
Proof. reflexivity. Qed.

Example parse_int_range : strconv.ParseInt "300" 8 = Err (NumError "ParseInt" "300" ErrRange).
Proof. reflexivity. Qed.

Example parse_int_big : strconv.ParseInt "99999999999999999999" 64 = Err (NumError "ParseInt" "99999999999999999999" ErrRange).
Proof. vm_compute. reflexivity. Qed.

Example parse_uint_minus : strconv.ParseUint "-1" 64 = Err (NumError "ParseUint" "-1" ErrSyntax).
Proof. reflexivity. Qed.


(** ** The mapper's equations *)

Section MapperFacts.

Variable lib : Library.
Variable env : Env.
Variables prefix tag : string.

Local Abbreviation loadField := (loadField lib env prefix tag).
Local Abbreviation loadEnvToStruct := (loadEnvToStruct lib env prefix tag).
Local Abbreviation setFromEnv := (setFromEnv lib env prefix tag).

(** The loop body, with the recursive call spelled as [loadEnvToStruct]. *)
Lemma loadField_eq f v :
  loadField f v =
    if negb (CanSet f) then (v, None)
    else match v with
         | VStruct sub =>
             match loadEnvToStruct sub with
             | (sub', Some e) =>
                 (VStruct sub', Some (Wrapf ("error loading sub config field " +:+ Name f) e))
             | (sub', None) => setFromEnv f (VStruct sub')
             end
         | _ => setFromEnv f v
         end.
Proof.
  destruct v; simpl; try reflexivity.
  destruct (negb (CanSet f)); [reflexivity|].
  match goal with
  | |- context [?F fields] =>
      is_fix F; assert (Hloop : forall fs : Struct, F fs = loadEnvToStruct fs)
  end.
  { induction fs as [|[f' v'] rest IH]; [reflexivity|].
    simpl. rewrite IH. reflexivity. }
  rewrite Hloop. destruct (loadEnvToStruct fields) as [sub' [e|]]; reflexivity.
Qed.

Lemma loadEnvToStruct_cons f v rest :
  loadEnvToStruct ((f, v) :: rest) =
    match loadField f v with
    | (v', Some e) => ((f, v') :: rest, Some e)
    | (v', None) =>
        let '(rest', e) := loadEnvToStruct rest in ((f, v') :: rest', e)
    end.
Proof. reflexivity. Qed.

(** Induction over a record and the records nested in it. *)
Lemma Struct_nested_ind (P : Value -> Prop) (Q : Struct -> Prop) :
  (forall v, KindOf v <> KStruct -> P v) ->
  (forall sub, Q sub -> P (VStruct sub)) ->
  Q [] ->
  (forall f v rest, P v -> Q rest -> Q ((f, v) :: rest)) ->
  (forall v, P v) /\ (forall fs, Q fs).
Proof.
  intros Hleaf Hstruct Hnil Hcons.
  assert (HP : forall v, P v).
  { fix IH 1. intros [s|b|k n|n|k n|k bits|l|fields|k c];
      try (apply Hleaf; simpl; try destruct k; discriminate).
    apply Hstruct. induction fields as [|[f v] rest IHrest].
    - exact Hnil.
    - apply Hcons; [apply IH | exact IHrest]. }
  split; [exact HP|].
  induction fs as [|[f v] rest IHrest]; [exact Hnil|].
  apply Hcons; [apply HP | exact IHrest].
Qed.

Lemma struct_or_leaf (v : Value) :
  (exists sub, v = VStruct sub) \/ KindOf v <> KStruct.
Proof.
  destruct v; try (right; simpl; discriminate); [left; eauto|].
  right. destruct k; discriminate.
Qed.

(** A field that cannot be set keeps its value. *)
Lemma loadField_unexported f v :
  CanSet f = false -> loadField f v = (v, None).
Proof. intros H. rewrite loadField_eq, H. reflexivity. Qed.

(** A settable field that is not a record goes straight to the tag and
    environment lookup. *)
Lemma loadField_leaf f v :
  CanSet f = true -> KindOf v <> KStruct -> loadField f v = setFromEnv f v.
Proof.
  intros H Hk. rewrite loadField_eq, H. simpl.
  destruct v; try reflexivity. now contradiction Hk.
Qed.

(** The lookup never assigns to a record field. *)
Lemma setFromEnv_struct f sub : setFromEnv f (VStruct sub) = (VStruct sub, None).
Proof.
  unfold setFromEnv. destruct (Lookup (Tag f) tag) as [envVar|]; [|reflexivity].
  destruct (String.eqb envVar ""); [reflexivity|].
  destruct (String.eqb (Getenv env (prefix +:+ envVar)) ""); reflexivity.
Qed.

(** A settable record field holds the mapped sub-record afterwards, and
    fails exactly when the recursive call does, with its error wrapped
    under the field's name. *)
Lemma loadField_struct f sub :
  CanSet f = true ->
  loadField f (VStruct sub) =
    (VStruct (fst (loadEnvToStruct sub)),
     match snd (loadEnvToStruct sub) with
     | Some e => Some (Wrapf ("error loading sub config field " +:+ Name f) e)
     | None => None
     end).
Proof.
  intros H. rewrite loadField_eq, H. simpl.
  destruct (loadEnvToStruct sub) as [sub' [e|]]; simpl; [reflexivity|].
  apply setFromEnv_struct.
Qed.

(** With a non-empty annotation and a non-empty value, the field is
    coerced. *)
Lemma setFromEnv_bound f v envVar :
  Lookup (Tag f) tag = Some envVar -> envVar <> "" ->
  Getenv env (prefix +:+ envVar) <> "" ->
  setFromEnv f v =
    match coerce lib envVar (Getenv env (prefix +:+ envVar)) v with
    | Ok v' => (v', None)
    | Err e => (v, Some e)
    end.
Proof.
  intros Htag Hvar Hval. unfold setFromEnv. rewrite Htag.
  destruct (String.eqb_spec envVar "") as [|_]; [contradiction|].
  destruct (String.eqb_spec (Getenv env (prefix +:+ envVar)) "") as [|_]; [contradiction|].
  reflexivity.
Qed.

(** With an unset or empty variable, the field keeps its value. *)
Lemma setFromEnv_empty f v envVar :
  Lookup (Tag f) tag = Some envVar ->
  Getenv env (prefix +:+ envVar) = "" ->
  setFromEnv f v = (v, None).
Proof.
  intros Htag Hval. unfold setFromEnv. rewrite Htag, Hval.
  destruct (String.eqb envVar ""); reflexivity.
Qed.

(** The field descriptors and the number of fields never change, and a
    field holds either its old value or what its loop iteration left. *)
Lemma loadEnvToStruct_lookup (fs : Struct) i f v :
  fs !! i = Some (f, v) ->
  fst (loadEnvToStruct fs) !! i = Some (f, v) \/
  fst (loadEnvToStruct fs) !! i = Some (f, fst (loadField f v)).
Proof.
  revert i. induction fs as [|[f0 v0] rest IH]; intros i Hi; [discriminate|].
  rewrite loadEnvToStruct_cons.
  destruct (loadField f0 v0) as [v0' [e|]] eqn:Hf0.
  - destruct i as [|i]; simpl in *.
    + inversion Hi; subst. right. now rewrite Hf0.
    + now left.
  - destruct (loadEnvToStruct rest) as [rest' e'] eqn:Hrest.
    destruct i as [|i]; simpl in *.
    + inversion Hi; subst. right. now rewrite Hf0.
    + apply IH in Hi. exact Hi.
Qed.

End MapperFacts.

(** ** The builder chain *)

Section BuilderFacts.

Variable lib : Library.

Lemma runChain_poisoned (b : Builder) (w : World) (ops : list ChainOp) :
  is_Some (err b) -> runChain lib ops (b, w) = Some (b, w).
Proof.
  intros [e He]. induction ops as [|[p|fuel] ops IH]; simpl.
  - reflexivity.
  - unfold LoadFile. rewrite He. exact IH.
  - unfold WithEnv. rewrite He. exact IH.
Qed.

End BuilderFacts.

(** C1 (poison latch). Once the builder holds an error, [LoadFile] with any
    path and [WithEnv] return the same builder in the same world, so does
    any chain of them, and [Build] returns the nil record with exactly the
    recorded error, without running the validator. *)
Theorem poison_latch (lib : Library) (b : Builder) (w : World) (e : error) :
  err b = Some e ->
  (forall filepath, LoadFile lib filepath b w = (b, w)) /\
  (forall fuel, WithEnv lib fuel b w = Some (b, w)) /\
  (forall ops, runChain lib ops (b, w) = Some (b, w)) /\
  Build lib b w = ((None, Some e), w).
Proof.
  intros He. repeat split.
  - intros filepath. unfold LoadFile. now rewrite He.
  - intros fuel. unfold WithEnv. now rewrite He.
  - intros ops. apply runChain_poisoned. rewrite He. eauto.
  - unfold Build. now rewrite He.
Qed.

Lemma poison_latch_witness :
  runChain testLibrary [OpWithEnv 3; OpLoadFile (Some "config.json")]
    (poisonedBuilder, testWorld) = Some (poisonedBuilder, testWorld)
  /\ Build testLibrary poisonedBuilder testWorld
     = ((None, Some (Wrapf "failed to read config file"
                       (ErrText "open: no such file or directory"))), testWorld).
Proof.
  destruct (poison_latch testLibrary poisonedBuilder testWorld
              (Wrapf "failed to read config file" (ErrText "open: no such file or directory"))
              eq_refl) as (_ & _ & Hchain & Hbuild).
  split; [apply Hchain | exact Hbuild].
Defined.






(** ** Log levels *)

(** C10 (logLevel is total). "silent" maps to 99, "error", "warn" and
    "info" to their slog levels, the empty string to info, and every other
    string to info as well. *)
Theorem logLevel_total :
  logLevel "silent" = 99 /\
  logLevel "error" = slog.LevelError /\
  logLevel "warn" = slog.LevelWarn /\
  logLevel "info" = slog.LevelInfo /\
  logLevel "" = slog.LevelInfo /\
  forall value : string,
    (value = "silent" /\ logLevel value = 99) \/
    (value = "error" /\ logLevel value = slog.LevelError) \/
    (value = "warn" /\ logLevel value = slog.LevelWarn) \/
    (value <> "silent" /\ value <> "error" /\ value <> "warn" /\
     logLevel value = slog.LevelInfo).
Proof.
  repeat (split; [reflexivity|]).
  intros value. unfold logLevel.
  destruct (String.eqb_spec value "silent") as [->|Hs]; [left; split; reflexivity|].
  destruct (String.eqb_spec value "error") as [->|He]; [right; left; split; reflexivity|].
  destruct (String.eqb_spec value "warn") as [->|Hw]; [right; right; left; split; reflexivity|].
  right; right; right. repeat (split; [assumption|]).
  destruct (String.eqb value "info" || String.eqb value ""); reflexivity.
Qed.

(** ** The environment mapper *)

(** C5 (do not clobber with emptiness), as the code has it. A field at any
    depth that carries the annotation, whose variable is unset or set to
    the empty string, and that is not itself a record, holds the same value
    after the mapper as before, whether the mapper succeeds or fails. *)
Theorem empty_env_keeps_field (lib : Library) (env : Env) (prefix tag : string)
    (path : list nat) (fs : Struct) (f : StructField) (v : Value) (envVar : string) :
  fieldAt path fs = Some (f, v) ->
  Lookup (Tag f) tag = Some envVar ->
  env !! (prefix +:+ envVar) = None \/ env !! (prefix +:+ envVar) = Some "" ->
  KindOf v <> KStruct ->
  fieldAt path (fst (loadEnvToStruct lib env prefix tag fs)) = Some (f, v).
Proof.
  intros Hat Htag Hval Hkind.
  assert (Hget : Getenv env (prefix +:+ envVar) = "").
  { unfold Getenv. destruct Hval as [-> | ->]; reflexivity. }
  revert fs Hat. induction path as [|i rest IH]; intros fs Hat; [discriminate|].
  destruct rest as [|j rest].
  - simpl in *.
    destruct (loadEnvToStruct_lookup lib env prefix tag fs i f v Hat) as [H|H];
      rewrite H; [reflexivity|].
    destruct (CanSet f) eqn:Hset.
    + rewrite loadField_leaf, (setFromEnv_empty lib env prefix tag f v envVar) by assumption.
      reflexivity.
    + rewrite loadField_unexported by assumption. reflexivity.
  - change (fieldAt (i :: j :: rest) fs)
      with (match fs !! i with
            | Some (_, VStruct sub) => fieldAt (j :: rest) sub
            | _ => None
            end) in Hat.
    change (fieldAt (i :: j :: rest) (fst (loadEnvToStruct lib env prefix tag fs)))
      with (match fst (loadEnvToStruct lib env prefix tag fs) !! i with
            | Some (_, VStruct sub) => fieldAt (j :: rest) sub
            | _ => None
            end).
    destruct (fs !! i) as [[g vi]|] eqn:Hi; [|discriminate].
    destruct vi; try discriminate.
    destruct (loadEnvToStruct_lookup lib env prefix tag fs i g _ Hi) as [H|H];
      rewrite H; [exact Hat|].
    destruct (CanSet g) eqn:Hset.
    + rewrite loadField_struct by assumption. simpl. apply IH. exact Hat.
    + rewrite loadField_unexported by assumption. exact Hat.
Qed.

Lemma empty_env_keeps_field_witness :
  fieldAt [1; 1; 1]%nat
    (fst (loadEnvToStruct testLibrary {[ "PORT" := "9090"; "NAME" := "" ]} "" "env" nestedConfig))
  = Some (field "Name" [("env", "NAME")], VString "inner").
Proof.
  apply (empty_env_keeps_field testLibrary {[ "PORT" := "9090"; "NAME" := "" ]} "" "env"
           [1; 1; 1]%nat nestedConfig _ _ "NAME").
  - reflexivity.
  - reflexivity.
  - right. reflexivity.
  - discriminate.
Defined.

(** C5 as stated fails on a record field with an annotation of its own: its
    variable NESTED is unset, yet the mapper changes the field, because it
    maps the sub-fields before it looks at the field's annotation. *)
Lemma empty_env_struct_counterexample :
  fieldAt [0%nat] annotatedNested
  = Some (field "Nested" [("env", "NESTED")],
          VStruct [ (field "Value" [("env", "VALUE")], VString "default") ])
  /\ Lookup [("env", "NESTED")] "env" = Some "NESTED"
  /\ ({[ "VALUE" := "nested-value" ]} : Env) !! "NESTED" = None
  /\ fieldAt [0%nat]
       (fst (loadEnvToStruct testLibrary {[ "VALUE" := "nested-value" ]} "" "env" annotatedNested))
     = Some (field "Nested" [("env", "NESTED")],
             VStruct [ (field "Value" [("env", "VALUE")], VString "nested-value") ]).
Proof. repeat split. Qed.

(** *** Splitting on commas *)

Lemma byte_comma (c : ascii) : (strings.byte c =? 44)%N = true -> c = ","%char.
Proof.
  intros H. apply N.eqb_eq in H. unfold strings.byte in H.
  rewrite <- (ascii_N_embedding c), H. reflexivity.
Qed.

Lemma SplitComma_nonempty (s : string) : strings.SplitComma s <> [].
Proof.
  destruct s as [|c r]; simpl; [discriminate|].
  destruct (strings.byte c =? 44)%N; [discriminate|].
  destruct (strings.SplitComma r); discriminate.
Qed.

(** Nothing is dropped: a value with n commas has n+1 pieces. *)
Lemma SplitComma_length (s : string) :
  length (strings.SplitComma s) = S (strings.CountComma s).
Proof.
  induction s as [|c r IH]; [reflexivity|]. simpl.
  destruct (strings.byte c =? 44)%N; simpl; [now rewrite IH|].
  destruct (strings.SplitComma r) as [|p ps] eqn:Hr; simpl in *; [discriminate|exact IH].
Qed.

Lemma JoinComma_cons_char (c : ascii) (p : string) (ps : list string) :
  strings.JoinComma (String c p :: ps) = String c (strings.JoinComma (p :: ps)).
Proof. destruct ps; reflexivity. Qed.

(** The pieces, joined by commas again, are the value: they are its
    segments between the commas, in order. *)
Lemma JoinComma_SplitComma (s : string) :
  strings.JoinComma (strings.SplitComma s) = s.
Proof.
  induction s as [|c r IH]; [reflexivity|]. simpl.
  destruct (strings.byte c =? 44)%N eqn:Hc.
  - apply byte_comma in Hc. subst c.
    destruct (strings.SplitComma r) as [|p ps] eqn:Hr.
    + now apply SplitComma_nonempty in Hr.
    + change (strings.JoinComma (EmptyString :: p :: ps))
        with (String "," (strings.JoinComma (p :: ps))).
      now rewrite IH.
  - destruct (strings.SplitComma r) as [|p ps] eqn:Hr.
    + now apply SplitComma_nonempty in Hr.
    + rewrite JoinComma_cons_char, IH. reflexivity.
Qed.

(** No piece contains a comma. *)
Lemma SplitComma_no_comma (s : string) :
  Forall (fun p => strings.CountComma p = 0%nat) (strings.SplitComma s).
Proof.
  induction s as [|c r IH]; simpl; [repeat constructor|].
  destruct (strings.byte c =? 44)%N eqn:Hc.
  - constructor; [reflexivity|exact IH].
  - destruct (strings.SplitComma r) as [|p ps]; [repeat constructor; simpl; now rewrite Hc|].
    inversion IH; subst. constructor; [|assumption].
    simpl. rewrite Hc. assumption.
Qed.

(** C6 (string lists). A settable slice-of-string field whose annotation
    names a variable with a non-empty value is set to the pieces of the
    value between commas, each with the white space at its ends removed, in
    order; there is one element per piece, empty ones included, and the
    mapper reports no error. *)
Theorem string_list_coercion (lib : Library) (env : Env) (prefix tag : string)
    (f : StructField) (envVar : string) (old : list string) :
  CanSet f = true ->
  Lookup (Tag f) tag = Some envVar ->
  envVar <> "" ->
  Getenv env (prefix +:+ envVar) <> "" ->
  loadField lib env prefix tag f (VStrings old)
  = (VStrings (map strings.TrimSpace (strings.SplitComma (Getenv env (prefix +:+ envVar)))), None)
  /\ length (map strings.TrimSpace (strings.SplitComma (Getenv env (prefix +:+ envVar))))
     = S (strings.CountComma (Getenv env (prefix +:+ envVar)))
  /\ (forall i : nat,
        map strings.TrimSpace (strings.SplitComma (Getenv env (prefix +:+ envVar))) !! i
        = strings.TrimSpace <$> (strings.SplitComma (Getenv env (prefix +:+ envVar)) !! i))
  /\ strings.JoinComma (strings.SplitComma (Getenv env (prefix +:+ envVar)))
     = Getenv env (prefix +:+ envVar)
  /\ Forall (fun p => strings.CountComma p = 0%nat)
       (strings.SplitComma (Getenv env (prefix +:+ envVar)))
  /\ strings.TrimSpace "" = ""
  /\ map strings.TrimSpace (strings.SplitComma "tag1, tag2 ,tag3") = ["tag1"; "tag2"; "tag3"]
  /\ map strings.TrimSpace (strings.SplitComma "tag1,,tag3") = ["tag1"; ""; "tag3"].
Proof.
  intros Hset Htag Hvar Hval. repeat split.
  - rewrite loadField_leaf by (assumption || discriminate).
    rewrite (setFromEnv_bound lib env prefix tag f _ envVar) by assumption.
    reflexivity.
  - rewrite length_map. apply SplitComma_length.
  - intros i. apply list_lookup_fmap.
  - apply JoinComma_SplitComma.
  - apply SplitComma_no_comma.
Qed.

Lemma string_list_coercion_witness :
  loadField testLibrary {[ "TEST_TAGS" := " tag1 , tag2 , tag3 " ]} "TEST_" "env"
    (field "Tags" [("json", "tags"); ("env", "TAGS")]) (VStrings ["default"])
  = (VStrings ["tag1"; "tag2"; "tag3"], None).
Proof.
  refine (proj1 (string_list_coercion testLibrary {[ "TEST_TAGS" := " tag1 , tag2 , tag3 " ]}
                   "TEST_" "env" (field "Tags" [("json", "tags"); ("env", "TAGS")])
                   "TAGS" ["default"] eq_refl eq_refl _ _)); discriminate.
Defined.

(** *** Abort at the first coercion error *)

Section AbortFacts.

Variable lib : Library.
Variable env : Env.
Variables prefix tag : string.

Local Abbreviation loadField := (loadField lib env prefix tag).
Local Abbreviation loadEnvToStruct := (loadEnvToStruct lib env prefix tag).
Local Abbreviation setFromEnv := (setFromEnv lib env prefix tag).
Local Abbreviation AbortsAt := (AbortsAt lib env prefix tag).

(** Every coercion error is a wrapper whose message names the
    annotation. *)
Lemma coerce_error envVar raw v e :
  coerce lib envVar raw v = Err e ->
  exists cause, e = Wrapf (coercionMsg v envVar) cause.
Proof.
  destruct v; simpl; try discriminate.
  - destruct (strconv.ParseBool raw); inversion 1; eauto.
  - destruct (strconv.ParseInt raw 64); inversion 1; eauto.
  - destruct (time_ParseDuration lib raw); inversion 1; eauto.
  - destruct (strconv.ParseUint raw 64); inversion 1; eauto.
  - destruct (strconv_ParseFloat lib raw); inversion 1; eauto.
Qed.

(** The lookup fails only through a coercion, and then leaves the field
    as it was. *)
Lemma setFromEnv_error f v v' e :
  setFromEnv f v = (v', Some e) ->
  v' = v /\
  exists envVar,
    Lookup (Tag f) tag = Some envVar /\ envVar <> "" /\
    Getenv env (prefix +:+ envVar) <> "" /\
    coerce lib envVar (Getenv env (prefix +:+ envVar)) v = Err e.
Proof.
  unfold setFromEnv. destruct (Lookup (Tag f) tag) as [envVar|]; [|discriminate].
  destruct (String.eqb_spec envVar "") as [|Hvar]; [discriminate|].
  destruct (String.eqb_spec (Getenv env (prefix +:+ envVar)) "") as [|Hval]; [discriminate|].
  destruct (coerce lib envVar (Getenv env (prefix +:+ envVar)) v) as [v''|e'] eqn:Hc;
    inversion 1; subst. split; [reflexivity|]. exists envVar. auto.
Qed.

Lemma setFromEnv_coerce_error f v envVar e :
  Lookup (Tag f) tag = Some envVar -> envVar <> "" ->
  Getenv env (prefix +:+ envVar) <> "" ->
  coerce lib envVar (Getenv env (prefix +:+ envVar)) v = Err e ->
  setFromEnv f v = (v, Some e).
Proof.
  intros Htag Hvar Hval Hc.
  rewrite (setFromEnv_bound lib env prefix tag f v envVar) by assumption.
  now rewrite Hc.
Qed.

(** Fields mapped without error do not affect the fields after them. *)
Lemma loadEnvToStruct_app (pre pre' rest : Struct) :
  loadEnvToStruct pre = (pre', None) ->
  loadEnvToStruct (pre ++ rest)
  = (pre' ++ fst (loadEnvToStruct rest), snd (loadEnvToStruct rest)).
Proof.
  revert pre'. induction pre as [|[f v] pre IH]; intros pre' Hpre.
  - inversion Hpre; subst. simpl. now destruct (loadEnvToStruct rest).
  - rewrite loadEnvToStruct_cons in Hpre. simpl app. rewrite loadEnvToStruct_cons.
    destruct (loadField f v) as [v' [e|]]; [discriminate|].
    destruct (loadEnvToStruct pre) as [pre0 e0] eqn:Hpre0.
    inversion Hpre; subst. rewrite (IH pre0 eq_refl). reflexivity.
Qed.

Lemma AbortsAt_cons g v0 v0' rest path f v rest' :
  loadField g v0 = (v0', None) ->
  AbortsAt rest path f v rest' ->
  AbortsAt ((g, v0) :: rest) path f v ((g, v0') :: rest').
Proof.
  intros Hg Habort.
  assert (Hpre : forall pre pre',
             loadEnvToStruct pre = (pre', None) ->
             loadEnvToStruct ((g, v0) :: pre) = ((g, v0') :: pre', None)).
  { intros pre pre' Hpre. rewrite loadEnvToStruct_cons, Hg, Hpre. reflexivity. }
  inversion Habort; subst.
  - apply (abort_here lib env prefix tag ((g, v0) :: pre) ((g, v0') :: pre')); auto.
  - apply (abort_inside lib env prefix tag ((g, v0) :: pre) ((g, v0') :: pre')); auto.
Qed.

(** From a failing run to the place it stopped at. *)
Lemma loadEnvToStruct_aborts :
  forall fs fs' e,
    loadEnvToStruct fs = (fs', Some e) ->
    exists path f v envVar cause,
      AbortsAt fs path f v fs' /\
      Lookup (Tag f) tag = Some envVar /\ envVar <> "" /\
      Getenv env (prefix +:+ envVar) <> "" /\
      coerce lib envVar (Getenv env (prefix +:+ envVar)) v
      = Err (Wrapf (coercionMsg v envVar) cause) /\
      e = wrapPath path (Wrapf (coercionMsg v envVar) cause).
Proof.
  set (Q := fun fs : Struct =>
              forall fs' e,
                loadEnvToStruct fs = (fs', Some e) ->
                exists path f v envVar cause,
                  AbortsAt fs path f v fs' /\
                  Lookup (Tag f) tag = Some envVar /\ envVar <> "" /\
                  Getenv env (prefix +:+ envVar) <> "" /\
                  coerce lib envVar (Getenv env (prefix +:+ envVar)) v
                  = Err (Wrapf (coercionMsg v envVar) cause) /\
                  e = wrapPath path (Wrapf (coercionMsg v envVar) cause)).
  set (P := fun v : Value => match v with VStruct sub => Q sub | _ => True end).
  apply (Struct_nested_ind P Q).
  - intros v Hk. destruct v; simpl; auto. now contradiction Hk.
  - intros sub Hsub. exact Hsub.
  - intros fs' e H. discriminate.
  - intros g v0 rest HP HQ fs' e Hrun.
    rewrite loadEnvToStruct_cons in Hrun.
    destruct (loadField g v0) as [v0' [e0|]] eqn:Hg.
    + (* the loop returns at this field *)
      inversion Hrun; subst fs' e0; clear Hrun.
      destruct (CanSet g) eqn:Hset;
        [|rewrite loadField_unexported in Hg by assumption; discriminate].
      destruct (struct_or_leaf v0) as [[fields ->]|Hk].
      * rewrite loadField_struct in Hg by assumption.
        destruct (loadEnvToStruct fields) as [sub' [e1|]] eqn:Hsub; simpl in Hg;
          [|discriminate].
        inversion Hg; subst v0' e; clear Hg.
        destruct (HP sub' e1 Hsub)
          as (path & f & v & envVar & cause & Hab & Htag & Hvar & Hval & Hc & He).
        exists (Name g :: path), f, v, envVar, cause.
        split; [|subst e1; auto].
        apply (abort_inside lib env prefix tag [] []); auto.
      * rewrite loadField_leaf in Hg by assumption.
        destruct (setFromEnv_error _ _ _ _ Hg) as (-> & envVar & Htag & Hvar & Hval & Hc).
        destruct (coerce_error _ _ _ _ Hc) as [cause ->].
        exists [], g, v0, envVar, cause.
        split; [|auto].
        apply (abort_here lib env prefix tag [] []); auto.
    + (* this field is done; the error comes from a later one *)
      destruct (loadEnvToStruct rest) as [rest' [e1|]] eqn:Hrest; [|discriminate].
      inversion Hrun; subst fs' e1; clear Hrun.
      destruct (HQ rest' e Hrest)
        as (path & f & v & envVar & cause & Hab & Hrest').
      exists path, f, v, envVar, cause.
      split; [|exact Hrest'].
      now apply AbortsAt_cons.
Qed.

(** From the place of the first failure to the failing run. *)
Lemma aborts_loadEnvToStruct fs path f v fs' e0 :
  AbortsAt fs path f v fs' ->
  setFromEnv f v = (v, Some e0) ->
  loadEnvToStruct fs = (fs', Some (wrapPath path e0)).
Proof.
  intros Hab Hfail. induction Hab as [pre pre' f v post Hpre Hset Hk
                                     |pre pre' g sub sub' post path f v Hpre Hset Hab IH].
  - rewrite (loadEnvToStruct_app _ _ _ Hpre), loadEnvToStruct_cons.
    rewrite loadField_leaf, Hfail by assumption. reflexivity.
  - rewrite (loadEnvToStruct_app _ _ _ Hpre), loadEnvToStruct_cons.
    rewrite loadField_struct by assumption. rewrite (IH Hfail). reflexivity.
Qed.

End AbortFacts.

(** C7 (coercion errors). The mapper returns an error exactly when its
    walk reaches a field whose value fails to coerce. It stops there: the
    fields before it in the walk are mapped, the failing field and all
    fields after it, at every level, are as they were. The error is the
    coercion error, whose message names the annotation, wrapped once for
    each record the failing field is nested in, with the name of the record
    field at that level. *)
Theorem coercion_error_propagation (lib : Library) (env : Env) (prefix tag : string)
    (fs fs' : Struct) (e : error) :
  loadEnvToStruct lib env prefix tag fs = (fs', Some e) <->
  exists path f v envVar cause,
    AbortsAt lib env prefix tag fs path f v fs' /\
    Lookup (Tag f) tag = Some envVar /\ envVar <> "" /\
    Getenv env (prefix +:+ envVar) <> "" /\
    coerce lib envVar (Getenv env (prefix +:+ envVar)) v
    = Err (Wrapf (coercionMsg v envVar) cause) /\
    e = wrapPath path (Wrapf (coercionMsg v envVar) cause).
Proof.
  split.
  - apply loadEnvToStruct_aborts.
  - intros (path & f & v & envVar & cause & Hab & Htag & Hvar & Hval & Hc & ->).
    apply (aborts_loadEnvToStruct lib env prefix tag fs path f v); [assumption|].
    now apply setFromEnv_coerce_error with envVar.
Qed.

Lemma coercion_error_propagation_witness :
  exists path f v envVar cause,
    AbortsAt testLibrary failingEnv "" "env" nestedConfig path f v nestedAfterFailure /\
    Lookup (Tag f) "env" = Some envVar /\ envVar <> "" /\
    Getenv failingEnv ("" +:+ envVar) <> "" /\
    coerce testLibrary envVar (Getenv failingEnv ("" +:+ envVar)) v
    = Err (Wrapf (coercionMsg v envVar) cause) /\
    Wrapf "error loading sub config field Nested"
      (Wrapf "error loading sub config field Inner"
         (Wrapf "invalid integer value for PORT"
            (NumError "ParseInt" "not-an-int" ErrSyntax)))
    = wrapPath path (Wrapf (coercionMsg v envVar) cause).
Proof.
  apply (proj1 (coercion_error_propagation testLibrary failingEnv "" "env"
                  nestedConfig nestedAfterFailure _)).
  reflexivity.
Defined.

(** *** Integers *)

Lemma digitsValue_ge (s : string) (n m : Z) :
  0 <= n -> digitsValue s n = Some m -> n <= m.
Proof.
  revert n. induction s as [|a r IH]; intros n Hn; simpl.
  - inversion 1; lia.
  - destruct ((48 <=? Z.of_N (strings.byte a)) && (Z.of_N (strings.byte a) <=? 57)) eqn:Hd;
      [|discriminate].
    intros H. apply IH in H; lia.
Qed.

(** The digit loop accepts exactly the digit strings whose value stays
    within [maxVal]. *)
Lemma parseDigits_spec (s0 : string) (maxVal : Z) (s : string) (n m : Z) :
  0 <= n <= maxVal -> maxVal < 2 ^ 64 ->
  strconv.parseDigits s0 maxVal s n = Ok m <-> digitsValue s n = Some m /\ m <= maxVal.
Proof.
  intros Hn Hmax. revert n Hn. induction s as [|a r IH]; intros n Hn; simpl.
  - split.
    + inversion 1; subst. split; [reflexivity|lia].
    + intros [H _]. inversion H. reflexivity.
  - set (c := Z.of_N (strings.byte a)).
    destruct ((48 <=? c) && (c <=? 57)) eqn:Hd.
    + assert ((10 <=? c - 48) = false) as -> by lia.
      unfold strconv.maxUint64.
      change (2 ^ 64 - 1) with 18446744073709551615 in *.
      change (2 ^ 64) with 18446744073709551616 in *.
      change (18446744073709551615 / 10 + 1) with 1844674407370955162.
      destruct (1844674407370955162 <=? n) eqn:Hcut.
      * split; [discriminate|].
        intros [H Hm]. apply digitsValue_ge in H; lia.
      * assert (Hsmall : n * 10 + (c - 48) < 18446744073709551616 \/
                         18446744073709551616 <= n * 10 + (c - 48)) by lia.
        destruct Hsmall as [Hsmall|Hbig].
        -- rewrite (Z.mod_small (n * 10 + (c - 48))) by lia.
           assert ((n * 10 + (c - 48) <? n * 10) = false) as -> by lia. simpl.
           destruct (maxVal <? n * 10 + (c - 48)) eqn:Hover.
           ++ split; [discriminate|].
              intros [H Hm]. apply digitsValue_ge in H; lia.
           ++ apply IH. lia.
        -- assert (Hwrap : (n * 10 + (c - 48)) mod 18446744073709551616
                           = n * 10 + (c - 48) - 18446744073709551616).
           { symmetry. apply Z.mod_unique_pos with 1; lia. }
           rewrite Hwrap.
           assert ((n * 10 + (c - 48) - 18446744073709551616 <? n * 10) = true) as -> by lia.
           simpl. split; [discriminate|].
           intros [H Hm]. apply digitsValue_ge in H; lia.
    + split; [|intros [H _]; discriminate].
      destruct ((97 <=? Z.lor c 32) && (Z.lor c 32 <=? 122)) eqn:Hl; [|discriminate].
      assert ((10 <=? Z.lor c 32 - 97 + 10) = true) as -> by lia. discriminate.
Qed.

(** [ParseUint] at 64 bits accepts exactly the unsigned literals below
    2^64, with their value. *)
Lemma ParseUint_spec (s : string) (m : Z) :
  strconv.ParseUint s 64 = Ok m <-> decimalUint s = Some m /\ m < 2 ^ 64.
Proof.
  unfold strconv.ParseUint, decimalUint.
  destruct s as [|a r]; [split; [discriminate|intros [H _]; discriminate]|].
  rewrite parseDigits_spec by lia. split.
  - intros [H Hm]. split; [exact H|lia].
  - intros [H Hm]. split; [exact H|lia].
Qed.

Lemma decimalUint_nonneg (s : string) (m : Z) : decimalUint s = Some m -> 0 <= m.
Proof.
  unfold decimalUint. destruct s; [discriminate|]. apply digitsValue_ge. lia.
Qed.

(** The part of [ParseInt] after the sign is picked off. *)
Lemma ParseInt_signed (s0 digits : string) (neg : bool) (m : Z) :
  match strconv.ParseUint digits 64 with
  | Err (NumError _ _ ErrSyntax) => Err (NumError "ParseInt" s0 ErrSyntax)
  | res =>
      let un := match res with Ok u => u | Err _ => 2 ^ 64 - 1 end in
      let cutoff := 2 ^ (64 - 1) in
      if negb neg && (cutoff <=? un) then Err (NumError "ParseInt" s0 ErrRange)
      else if neg && (cutoff <? un) then Err (NumError "ParseInt" s0 ErrRange)
      else Ok (if neg then - un else un)
  end = Ok m
  <-> (exists un, decimalUint digits = Some un /\ m = if neg then - un else un)
      /\ - 2 ^ 63 <= m < 2 ^ 63.
Proof.
  change (2 ^ (64 - 1)) with 9223372036854775808.
  change (2 ^ 63) with 9223372036854775808.
  change (2 ^ 64 - 1) with 18446744073709551615.
  destruct (strconv.ParseUint digits 64) as [un|e] eqn:HU.
  - apply ParseUint_spec in HU. destruct HU as [Hdec Hlt].
    pose proof (decimalUint_nonneg _ _ Hdec) as Hpos.
    cbv zeta. destruct neg; simpl.
    + destruct (9223372036854775808 <? un) eqn:Hc.
      * split; [discriminate|]. intros [(un' & Hdec' & ->) Hr].
        rewrite Hdec in Hdec'. inversion Hdec'; subst. lia.
      * split.
        -- inversion 1; subst. split; [eauto|lia].
        -- intros [(un' & Hdec' & ->) Hr]. rewrite Hdec in Hdec'. inversion Hdec'. reflexivity.
    + destruct (9223372036854775808 <=? un) eqn:Hc.
      * split; [discriminate|]. intros [(un' & Hdec' & ->) Hr].
        rewrite Hdec in Hdec'. inversion Hdec'; subst. lia.
      * split.
        -- inversion 1; subst. split; [eauto|lia].
        -- intros [(un' & Hdec' & ->) Hr]. rewrite Hdec in Hdec'. inversion Hdec'. reflexivity.
  - assert (Hno : forall un, decimalUint digits = Some un -> un < 2 ^ 64 -> False).
    { intros un Hdec Hlt. assert (H : strconv.ParseUint digits 64 = Ok un)
        by (apply ParseUint_spec; auto). rewrite HU in H. discriminate. }
    change (2 ^ 64) with 18446744073709551616 in Hno.
    split.
    + destruct e as [msg|fn num [|]|msg inner]; cbv zeta; destruct neg; simpl; discriminate.
    + intros [(un & Hdec & ->) Hr]. exfalso. apply (Hno un Hdec).
      destruct neg; lia.
Qed.

(** [ParseInt] at 64 bits accepts exactly the signed literals in the int64
    range, with their value. *)
Lemma ParseInt_spec (s : string) (m : Z) :
  strconv.ParseInt s 64 = Ok m <-> decimalInt s = Some m /\ - 2 ^ 63 <= m < 2 ^ 63.
Proof.
  unfold strconv.ParseInt, decimalInt.
  destruct s as [|a r]; [split; [discriminate|intros [H _]; discriminate]|].
  cbv zeta. rewrite ParseInt_signed.
  destruct (strings.byte a =? 45)%N eqn:Hminus; simpl.
  - rewrite orb_true_r. split.
    + intros [(un & Hdec & ->) Hr]. rewrite Hdec. auto.
    + intros [Hdec Hr]. split; [|exact Hr].
      destruct (decimalUint r) as [un|]; [|discriminate]. inversion Hdec. eauto.
  - rewrite orb_false_r. destruct (strings.byte a =? 43)%N.
    + split.
      * intros [(un & Hdec & ->) Hr]. auto.
      * intros [Hdec Hr]. eauto.
    + split.
      * intros [(un & Hdec & ->) Hr]. auto.
      * intros [Hdec Hr]. eauto.
Qed.

(** A value within the range of its kind is stored as it is. *)
Lemma SetInt_in_range (k : IntKind) (val : Z) :
  - 2 ^ (intBits k - 1) <= val < 2 ^ (intBits k - 1) -> SetInt k val = val.
Proof.
  unfold SetInt. destruct k; unfold intBits, IntSize; simpl Z.sub; intros H;
    rewrite Z.mod_small; lia.
Qed.

Lemma SetUint_in_range (k : UintKind) (val : Z) :
  0 <= val < 2 ^ uintBits k -> SetUint k val = val.
Proof. unfold SetUint. intros H. apply Z.mod_small. exact H. Qed.

(** C4 (integer coercion), as the code has it. A settable integer field
    (time.Duration apart) whose annotation names a variable with a
    non-empty value is parsed in base 10 at 64 bits, whatever the width of
    the field's kind: the parse succeeds exactly on the signed (unsigned)
    literals in the int64 (uint64) range; on success the field is set to
    the value converted to its kind, which is the value itself when it is
    in the kind's range; on failure the field keeps its value and the
    error is the parser's, wrapped under a message that ends in the
    annotation's name. *)
Theorem integer_coercion (lib : Library) (env : Env) (prefix tag : string)
    (f : StructField) (envVar : string) (old : Z) :
  CanSet f = true ->
  Lookup (Tag f) tag = Some envVar ->
  envVar <> "" ->
  Getenv env (prefix +:+ envVar) <> "" ->
  (forall k,
     loadField lib env prefix tag f (VInt k old)
     = match strconv.ParseInt (Getenv env (prefix +:+ envVar)) 64 with
       | Ok val => (VInt k (SetInt k val), None)
       | Err e => (VInt k old, Some (Wrapf ("invalid integer value for " +:+ envVar) e))
       end) /\
  (forall k,
     loadField lib env prefix tag f (VUint k old)
     = match strconv.ParseUint (Getenv env (prefix +:+ envVar)) 64 with
       | Ok val => (VUint k (SetUint k val), None)
       | Err e => (VUint k old, Some (Wrapf ("invalid unsigned integer value for " +:+ envVar) e))
       end) /\
  (forall val,
     strconv.ParseInt (Getenv env (prefix +:+ envVar)) 64 = Ok val
     <-> decimalInt (Getenv env (prefix +:+ envVar)) = Some val /\ - 2 ^ 63 <= val < 2 ^ 63) /\
  (forall val,
     strconv.ParseUint (Getenv env (prefix +:+ envVar)) 64 = Ok val
     <-> decimalUint (Getenv env (prefix +:+ envVar)) = Some val /\ val < 2 ^ 64) /\
  (forall k val, - 2 ^ (intBits k - 1) <= val < 2 ^ (intBits k - 1) -> SetInt k val = val) /\
  (forall k val, 0 <= val < 2 ^ uintBits k -> SetUint k val = val) /\
  (forall k,
     (forall val, decimalInt (Getenv env (prefix +:+ envVar)) = Some val ->
                  ~ - 2 ^ 63 <= val < 2 ^ 63) ->
     exists cause,
       loadField lib env prefix tag f (VInt k old)
       = (VInt k old, Some (Wrapf ("invalid integer value for " +:+ envVar) cause))) /\
  (forall k,
     (forall val, decimalUint (Getenv env (prefix +:+ envVar)) = Some val ->
                  ~ val < 2 ^ 64) ->
     exists cause,
       loadField lib env prefix tag f (VUint k old)
       = (VUint k old, Some (Wrapf ("invalid unsigned integer value for " +:+ envVar) cause))).
Proof.
  intros Hset Htag Hvar Hval.
  assert (HI : forall k,
             loadField lib env prefix tag f (VInt k old)
             = match strconv.ParseInt (Getenv env (prefix +:+ envVar)) 64 with
               | Ok val => (VInt k (SetInt k val), None)
               | Err e => (VInt k old, Some (Wrapf ("invalid integer value for " +:+ envVar) e))
               end).
  { intros k. rewrite loadField_leaf by (assumption || discriminate).
    rewrite (setFromEnv_bound lib env prefix tag f _ envVar) by assumption. simpl.
    destruct (strconv.ParseInt (Getenv env (prefix +:+ envVar)) 64); reflexivity. }
  assert (HU : forall k,
             loadField lib env prefix tag f (VUint k old)
             = match strconv.ParseUint (Getenv env (prefix +:+ envVar)) 64 with
               | Ok val => (VUint k (SetUint k val), None)
               | Err e =>
                   (VUint k old, Some (Wrapf ("invalid unsigned integer value for " +:+ envVar) e))
               end).
  { intros k. rewrite loadField_leaf by (assumption || discriminate).
    rewrite (setFromEnv_bound lib env prefix tag f _ envVar) by assumption. simpl.
    destruct (strconv.ParseUint (Getenv env (prefix +:+ envVar)) 64); reflexivity. }
  split; [exact HI|]. split; [exact HU|].
  split; [intros val; apply ParseInt_spec|].
  split; [intros val; apply ParseUint_spec|].
  split; [apply SetInt_in_range|].
  split; [apply SetUint_in_range|].
  split.
  - intros k Hbad. rewrite HI.
    destruct (strconv.ParseInt (Getenv env (prefix +:+ envVar)) 64) as [val|e] eqn:HP; [|eauto].
    apply ParseInt_spec in HP. destruct HP as [Hdec Hr]. now apply Hbad in Hdec.
  - intros k Hbad. rewrite HU.
    destruct (strconv.ParseUint (Getenv env (prefix +:+ envVar)) 64) as [val|e] eqn:HP; [|eauto].
    apply ParseUint_spec in HP. destruct HP as [Hdec Hr]. now apply Hbad in Hdec.
Qed.


Lemma integer_coercion_witness :
  loadField testLibrary {[ "TEST_PORT" := "7070" ]} "TEST_" "env"
    (field "Port" [("json", "port"); ("env", "PORT")]) (VInt Int 8080)
  = (VInt Int 7070, None).
Proof.
  refine (proj1 (integer_coercion testLibrary {[ "TEST_PORT" := "7070" ]} "TEST_" "env"
                   (field "Port" [("json", "port"); ("env", "PORT")]) "PORT" 8080
                   eq_refl eq_refl _ _) Int); discriminate.
Defined.

(** C4 as stated fails on the narrow kinds: 300 is not a literal of an
    8-bit signed field and 256 is not one of an 8-bit unsigned field, yet
    the mapper reports no error and stores the low eight bits. *)
Lemma integer_width_counterexample :
  strconv.ParseInt "300" (intBits Int8) = Err (NumError "ParseInt" "300" ErrRange)
  /\ strconv.ParseUint "256" (uintBits Uint8) = Err (NumError "ParseUint" "256" ErrRange)
  /\ loadEnvToStruct testLibrary {[ "LEVEL" := "300"; "RETRIES" := "256" ]} "" "env" narrowConfig
     = ([ (field "Level" [("env", "LEVEL")], VInt Int8 44);
          (field "Retries" [("env", "RETRIES")], VUint Uint8 0) ], None).
Proof. repeat split. Qed.

(** ** The ancestor locator *)

Lemma length_filepath_Dir (dir : Path) :
  length (filepath_Dir dir) = Nat.pred (length dir).
Proof.
  unfold filepath_Dir. induction dir as [|c [|c' rest] IH]; try reflexivity.
  change (removelast (c :: c' :: rest)) with (c :: removelast (c' :: rest)).
  cbn [length Nat.pred] in *. rewrite IH. reflexivity.
Qed.

(** Only the root is its own parent. *)
Lemma filepath_Dir_fixed (dir : Path) : filepath_Dir dir = dir <-> dir = [].
Proof.
  split; [|intros ->; reflexivity].
  intros H. apply (f_equal (@length string)) in H.
  rewrite length_filepath_Dir in H. destruct dir; [reflexivity|simpl in H; lia].
Qed.

Lemma fold_left_tryFile (dir : Path) (files : list string) (st : World * bool) :
  fold_left (tryFile dir) files st = fold_left tryPath (map (filepath_Join dir) files) st.
Proof.
  revert st. induction files as [|name files IH]; intros st; [reflexivity|].
  simpl. apply IH.
Qed.

(** With fuel for one iteration per directory from [dir] to the root, the
    walk ends, having tried the candidate paths in search order. *)
Lemma walk_searchOrder (files : list string) (dir : Path) (st : World * bool) (fuel : nat) :
  (length dir < fuel)%nat ->
  walk fuel files dir st = Some (fold_left tryPath (searchOrder dir files) st).
Proof.
  unfold searchOrder, ancestors.
  remember (length dir) as n eqn:Hn. revert dir st fuel Hn.
  induction n as [|n IH]; intros dir st fuel Hn Hfuel;
    (destruct fuel as [|fuel]; [lia|]); simpl walk.
  - destruct dir; [|discriminate]. simpl. rewrite app_nil_r.
    rewrite fold_left_tryFile. reflexivity.
  - rewrite bool_decide_eq_false_2.
    + rewrite (IH (filepath_Dir dir)); [|rewrite length_filepath_Dir; lia|lia].
      simpl flat_map. rewrite fold_left_app, fold_left_tryFile. reflexivity.
    + rewrite filepath_Dir_fixed. intros ->. discriminate.
Qed.

(** With less fuel the loop is still on its way up: it takes one iteration
    for each directory and ends at the root, not before. *)
Lemma walk_short (files : list string) (dir : Path) (st : World * bool) (fuel : nat) :
  (fuel <= length dir)%nat -> walk fuel files dir st = None.
Proof.
  revert dir st. induction fuel as [|fuel IH]; intros dir st Hfuel; [reflexivity|].
  simpl. rewrite bool_decide_eq_false_2.
  - apply IH. rewrite length_filepath_Dir. lia.
  - rewrite filepath_Dir_fixed. intros ->. simpl in Hfuel. lia.
Qed.

(** Trying a path changes neither the file system nor the working
    directory. *)
Lemma tryPath_files (st : World * bool) (p : Path * string) :
  w_stat (fst (tryPath st p)) = w_stat (fst st) /\
  w_dotenv (fst (tryPath st p)) = w_dotenv (fst st).
Proof.
  destruct st as [w found]. unfold tryPath, godotenv_Load.
  destruct (w_stat w p); [|auto].
  destruct (w_dotenv w p); auto.
Qed.

Lemma fold_tryPath_files (l : list (Path * string)) (st : World * bool) :
  w_stat (fst (fold_left tryPath l st)) = w_stat (fst st) /\
  w_dotenv (fst (fold_left tryPath l st)) = w_dotenv (fst st).
Proof.
  revert st. induction l as [|p l IH]; intros st; [auto|].
  simpl. destruct (IH (tryPath st p)) as [-> ->]. apply tryPath_files.
Qed.

(** A variable that is set keeps its value. *)
Lemma tryPath_keeps (st : World * bool) (p : Path * string) (k v : string) :
  w_env (fst st) !! k = Some v -> w_env (fst (tryPath st p)) !! k = Some v.
Proof.
  destruct st as [w found]. unfold tryPath, godotenv_Load. simpl. intros Hk.
  destruct (w_stat w p); [|exact Hk].
  destruct (w_dotenv w p) as [assignments|]; [|exact Hk].
  simpl. now apply lookup_union_Some_l.
Qed.

Lemma fold_tryPath_keeps (l : list (Path * string)) (st : World * bool) (k v : string) :
  w_env (fst st) !! k = Some v -> w_env (fst (fold_left tryPath l st)) !! k = Some v.
Proof.
  revert st. induction l as [|p l IH]; intros st Hk; [exact Hk|].
  simpl. apply IH. now apply tryPath_keeps.
Qed.

(** A file that does not assign a variable leaves it unset. *)
Lemma tryPath_unset (st : World * bool) (p : Path * string) (k : string) :
  w_env (fst st) !! k = None ->
  (forall v, ~ defines (fst st) p k v) ->
  w_env (fst (tryPath st p)) !! k = None.
Proof.
  destruct st as [w found]. unfold tryPath, godotenv_Load, defines. simpl.
  intros Hk Hno.
  destruct (w_stat w p) eqn:Hstat; [|exact Hk].
  destruct (w_dotenv w p) as [assignments|] eqn:Hfile; [|exact Hk].
  simpl. rewrite lookup_union_r by exact Hk.
  destruct (assignments !! k) as [v|] eqn:Hv; [|reflexivity].
  exfalso. apply (Hno v). eauto.
Qed.

(** A file that assigns an unset variable sets it. *)
Lemma tryPath_sets (st : World * bool) (p : Path * string) (k v : string) :
  w_env (fst st) !! k = None ->
  defines (fst st) p k v ->
  w_env (fst (tryPath st p)) !! k = Some v.
Proof.
  destruct st as [w found]. unfold tryPath, godotenv_Load, defines. simpl.
  intros Hk (Hstat & assignments & Hfile & Hv).
  rewrite Hstat, Hfile. simpl. rewrite lookup_union_r by exact Hk. exact Hv.
Qed.

Lemma defines_same_files (w w' : World) (p : Path * string) (k v : string) :
  w_stat w' = w_stat w -> w_dotenv w' = w_dotenv w ->
  defines w' p k v <-> defines w p k v.
Proof. unfold defines. intros -> ->. reflexivity. Qed.

Lemma fold_tryPath_unset (l : list (Path * string)) (st : World * bool) (k : string) :
  w_env (fst st) !! k = None ->
  (forall q, q ∈ l -> forall v, ~ defines (fst st) q k v) ->
  w_env (fst (fold_left tryPath l st)) !! k = None.
Proof.
  revert st. induction l as [|p l IH]; intros st Hk Hno; [exact Hk|].
  simpl. destruct (tryPath_files st p) as [Hstat Hfile]. apply IH.
  - apply tryPath_unset; [exact Hk|]. apply Hno. left.
  - intros q Hq v. rewrite (defines_same_files (fst st)) by assumption.
    apply Hno. now right.
Qed.

(** First found wins: the first path in the list whose file assigns an
    unset variable decides its value. *)
Lemma fold_tryPath_first (before after : list (Path * string)) (p : Path * string)
    (st : World * bool) (k v : string) :
  w_env (fst st) !! k = None ->
  (forall q, q ∈ before -> forall v', ~ defines (fst st) q k v') ->
  defines (fst st) p k v ->
  w_env (fst (fold_left tryPath (before ++ p :: after) st)) !! k = Some v.
Proof.
  intros Hk Hno Hp. rewrite fold_left_app. simpl.
  destruct (fold_tryPath_files before st) as [Hstat Hfile].
  apply fold_tryPath_keeps, tryPath_sets.
  - now apply fold_tryPath_unset.
  - now rewrite (defines_same_files (fst st)).
Qed.

(** The locator's result, when it has the fuel to finish. *)
Lemma loadEnvFromAncestors_run (files : list string) (w : World) (dir : Path) (fuel : nat) :
  w_cwd w = Ok dir -> (length dir < fuel)%nat ->
  exists w',
    loadEnvFromAncestors fuel files w = Some (w', None) /\
    w_env w' = w_env (fst (fold_left tryPath (searchOrder dir files) (w, false))).
Proof.
  intros Hcwd Hfuel. unfold loadEnvFromAncestors. rewrite Hcwd.
  rewrite walk_searchOrder by exact Hfuel.
  destruct (fold_left tryPath (searchOrder dir files) (w, false)) as [w1 [|]];
    eexists; split; reflexivity.
Qed.

Lemma loadEnvFromAncestors_env (files : list string) (w w' : World) (r : option error)
    (fuel : nat) :
  loadEnvFromAncestors fuel files w = Some (w', r) ->
  (exists e, w_cwd w = Err e /\ w' = w /\ r = Some e) \/
  (exists dir, w_cwd w = Ok dir /\ (length dir < fuel)%nat /\ r = None /\
     w_env w' = w_env (fst (fold_left tryPath (searchOrder dir files) (w, false)))).
Proof.
  unfold loadEnvFromAncestors. destruct (w_cwd w) as [dir|e] eqn:Hcwd.
  - destruct (le_lt_dec fuel (length dir)) as [Hshort|Hlong].
    + rewrite walk_short by exact Hshort. discriminate.
    + rewrite walk_searchOrder by exact Hlong.
      destruct (fold_left tryPath (searchOrder dir files) (w, false)) as [w1 found] eqn:Hfold.
      intros H. inversion H; subst; clear H. right. exists dir.
      split; [reflexivity|]. split; [assumption|]. split; [reflexivity|].
      rewrite Hfold. destruct found; reflexivity.
  - inversion 1; subst. left. eauto.
Qed.

(** C2 (precedence). From a known working directory the locator runs to
    its end. Whatever it finds, a variable that is set before it runs has
    the same value afterwards; and a variable that is not set gets its
    value from the first candidate, in the order working directory to root
    and within a directory in the caller's order of names, whose file is
    found, loads, and assigns the variable. *)
Theorem precedence_law (files : list string) (w : World) :
  (forall cwd fuel,
     w_cwd w = Ok cwd -> (length cwd < fuel)%nat ->
     exists w', loadEnvFromAncestors fuel files w = Some (w', None)) /\
  (forall fuel w' r,
     loadEnvFromAncestors fuel files w = Some (w', r) ->
     (forall k v, w_env w !! k = Some v -> w_env w' !! k = Some v) /\
     (forall cwd before p after k v,
        w_cwd w = Ok cwd ->
        searchOrder cwd files = before ++ p :: after ->
        w_env w !! k = None ->
        (forall q, q ∈ before -> forall v', ~ defines w q k v') ->
        defines w p k v ->
        w_env w' !! k = Some v)).
Proof.
  split.
  - intros cwd fuel Hcwd Hfuel.
    destruct (loadEnvFromAncestors_run files w cwd fuel Hcwd Hfuel) as (w' & Hrun & _).
    eauto.
  - intros fuel w' r Hrun. apply loadEnvFromAncestors_env in Hrun. split.
    + intros k v Hk. destruct Hrun as [(e & _ & -> & _)|(dir & _ & _ & _ & ->)]; [exact Hk|].
      now apply fold_tryPath_keeps.
    + intros cwd before p after k v Hcwd Horder Hk Hno Hp.
      destruct Hrun as [(e & He & _)|(dir & Hdir & _ & _ & ->)].
      * rewrite Hcwd in He. discriminate.
      * rewrite Hcwd in Hdir. inversion Hdir; subst dir. rewrite Horder.
        now apply fold_tryPath_first.
Qed.

Lemma precedence_law_witness :
  exists w',
    locatedWorld = Some (w', None) /\
    w_env w' !! "TEST_NAME" = Some "name-from-actual-env" /\
    w_env w' !! "TEST_PORT" = Some "1111" /\
    w_env w' !! "TEST_FACTOR" = Some "7.7".
Proof.
  destruct (precedence_law [".env.test1"; ".env.test2"] testWorld) as [Hends Hvalues].
  destruct (Hends ["home"; "app"] 3%nat eq_refl ltac:(simpl; lia)) as (w' & Hrun).
  exists w'. split; [exact Hrun|].
  destruct (Hvalues _ _ _ Hrun) as [Hkeep Hfirst].
  split; [apply Hkeep; reflexivity|]. split.
  - eapply (Hfirst ["home"; "app"] [] (["home"; "app"], ".env.test1"));
      [reflexivity|reflexivity|reflexivity| |].
    + intros q Hq. inversion Hq.
    + split; [reflexivity|]. eexists. split; reflexivity.
  - eapply (Hfirst ["home"; "app"] [(["home"; "app"], ".env.test1")]
              (["home"; "app"], ".env.test2"));
      [reflexivity|reflexivity|reflexivity| |].
    + intros q Hq v' (_ & assignments & Hfile & Hv).
      apply list_elem_of_singleton in Hq. subst q.
      vm_compute in Hfile. inversion Hfile; subst assignments.
      vm_compute in Hv. discriminate.
    + split; [reflexivity|]. eexists. split; reflexivity.
Defined.

(** C9 (locator errors and termination). The locator fails exactly when
    the working directory cannot be determined, with that error and
    without touching anything. Otherwise, whatever the candidate names and
    the files, its loop makes one iteration for each directory from the
    working directory to the root, stops there, where the parent of the
    directory is the directory itself, and the locator returns no error. *)
Theorem locator_error_policy (files : list string) (w : World) :
  (forall e, w_cwd w = Err e ->
     forall fuel, loadEnvFromAncestors fuel files w = Some (w, Some e)) /\
  (forall dir, w_cwd w = Ok dir ->
     (forall fuel, (length dir < fuel)%nat ->
        exists w', loadEnvFromAncestors fuel files w = Some (w', None)) /\
     (forall fuel, (fuel <= length dir)%nat -> loadEnvFromAncestors fuel files w = None)) /\
  (forall fuel w' r,
     loadEnvFromAncestors fuel files w = Some (w', r) ->
     is_Some r <-> exists e, w_cwd w = Err e) /\
  (forall fuel dir st,
     filepath_Dir dir = dir ->
     walk (S fuel) files dir st = Some (fold_left (tryFile dir) files st)) /\
  (forall fuel dir st,
     filepath_Dir dir <> dir ->
     walk (S fuel) files dir st
     = walk fuel files (filepath_Dir dir) (fold_left (tryFile dir) files st)).
Proof.
  split; [|split; [|split; [|split]]].
  - intros e He fuel. unfold loadEnvFromAncestors. now rewrite He.
  - intros dir Hdir. split.
    + intros fuel Hfuel.
      destruct (loadEnvFromAncestors_run files w dir fuel Hdir Hfuel) as (w' & Hrun & _).
      eauto.
    + intros fuel Hfuel. unfold loadEnvFromAncestors.
      rewrite Hdir, walk_short by exact Hfuel. reflexivity.
  - intros fuel w' r Hrun. apply loadEnvFromAncestors_env in Hrun.
    destruct Hrun as [(e & He & _ & ->)|(dir & Hdir & _ & -> & _)].
    + split; eauto.
    + split; [intros [e He]; discriminate|]. intros [e He]. rewrite Hdir in He. discriminate.
  - intros fuel dir st Hroot. simpl. now rewrite bool_decide_eq_true_2.
  - intros fuel dir st Hup. simpl. now rewrite bool_decide_eq_false_2.
Qed.

Lemma locator_error_policy_witness :
  loadEnvFromAncestors 0 ["non-existent-1.env"; "non-existent-2.env"] lostWorld
  = Some (lostWorld, Some (ErrText "getwd: no such file or directory"))
  /\ (exists w', loadEnvFromAncestors 3 ["non-existent-1.env"; ".env.bad"] testWorld
                 = Some (w', None))
  /\ loadEnvFromAncestors 2 ["non-existent-1.env"; ".env.bad"] testWorld = None.
Proof.
  split; [|split].
  - apply (proj1 (locator_error_policy _ lostWorld) _ eq_refl).
  - apply (proj1 (proj1 (proj2 (locator_error_policy _ testWorld)) ["home"; "app"] eq_refl)).
    simpl. lia.
  - apply (proj2 (proj1 (proj2 (locator_error_policy _ testWorld)) ["home"; "app"] eq_refl)).
    simpl. lia.
Defined.

(** * Further properties of the code *)

(** ** The mapper as a whole *)

Section MapperWhole.

Variable lib : Library.
Variable env : Env.
Variables prefix tag : string.

Local Abbreviation loadField := (loadField lib env prefix tag).
Local Abbreviation loadEnvToStruct := (loadEnvToStruct lib env prefix tag).
Local Abbreviation setFromEnv := (setFromEnv lib env prefix tag).

(** A coercion gives a value of the type of the field. *)
Lemma coerce_skeleton envVar raw v v' :
  coerce lib envVar raw v = Ok v' -> skeleton v' = skeleton v.
Proof.
  destruct v; simpl.
  - inversion 1; reflexivity.
  - destruct (strconv.ParseBool raw); inversion 1; reflexivity.
  - destruct (strconv.ParseInt raw 64); inversion 1; reflexivity.
  - destruct (time_ParseDuration lib raw); inversion 1; reflexivity.
  - destruct (strconv.ParseUint raw 64); inversion 1; reflexivity.
  - destruct (strconv_ParseFloat lib raw); inversion 1; reflexivity.
  - inversion 1; reflexivity.
  - inversion 1; reflexivity.
  - inversion 1; reflexivity.
Qed.

(** What a coercion stores depends on the field's type, not on the value
    the field had. *)
Lemma coerce_again envVar raw v v' :
  coerce lib envVar raw v = Ok v' -> coerce lib envVar raw v' = Ok v'.
Proof.
  destruct v; simpl.
  - inversion 1; reflexivity.
  - destruct (strconv.ParseBool raw) eqn:H; inversion 1; simpl; now rewrite H.
  - destruct (strconv.ParseInt raw 64) eqn:H; inversion 1; simpl; now rewrite H.
  - destruct (time_ParseDuration lib raw) eqn:H; inversion 1; simpl; now rewrite H.
  - destruct (strconv.ParseUint raw 64) eqn:H; inversion 1; simpl; now rewrite H.
  - destruct (strconv_ParseFloat lib raw) eqn:H; inversion 1; simpl; now rewrite H.
  - inversion 1; reflexivity.
  - inversion 1; reflexivity.
  - inversion 1; reflexivity.
Qed.

Lemma setFromEnv_skeleton f v : skeleton (fst (setFromEnv f v)) = skeleton v.
Proof.
  unfold setFromEnv. destruct (Lookup (Tag f) tag) as [envVar|]; [|reflexivity].
  destruct (String.eqb envVar ""); [reflexivity|].
  destruct (String.eqb (Getenv env (prefix +:+ envVar)) ""); [reflexivity|].
  destruct (coerce lib envVar (Getenv env (prefix +:+ envVar)) v) eqn:Hc; [|reflexivity].
  simpl. now apply coerce_skeleton in Hc.
Qed.

Lemma setFromEnv_again f v :
  setFromEnv f (fst (setFromEnv f v)) = setFromEnv f v.
Proof.
  unfold setFromEnv. destruct (Lookup (Tag f) tag) as [envVar|]; [|reflexivity].
  destruct (String.eqb envVar ""); [reflexivity|].
  destruct (String.eqb (Getenv env (prefix +:+ envVar)) ""); [reflexivity|].
  destruct (coerce lib envVar (Getenv env (prefix +:+ envVar)) v) eqn:Hc; simpl.
  - now rewrite (coerce_again _ _ _ _ Hc).
  - now rewrite Hc.
Qed.

Lemma setFromEnv_kind f v : KindOf (fst (setFromEnv f v)) = KindOf v.
Proof.
  unfold setFromEnv. destruct (Lookup (Tag f) tag) as [envVar|]; [|reflexivity].
  destruct (String.eqb envVar ""); [reflexivity|].
  destruct (String.eqb (Getenv env (prefix +:+ envVar)) ""); [reflexivity|].
  destruct (coerce lib envVar (Getenv env (prefix +:+ envVar)) v) eqn:Hc; [|reflexivity].
  simpl. destruct v; simpl in Hc;
    repeat match type of Hc with
           | match ?x with _ => _ end = _ => destruct x
           end; inversion Hc; reflexivity.
Qed.

End MapperWhole.

(** Records of the same shape have the same field descriptors. *)
Lemma skeleton_descriptors (fs1 fs2 : Struct) :
  skeleton (VStruct fs1) = skeleton (VStruct fs2) -> map fst fs1 = map fst fs2.
Proof.
  simpl. intros H. inversion H as [Hmap]. clear H. revert fs2 Hmap.
  induction fs1 as [|[f1 v1] fs1 IH]; intros [|[f2 v2] fs2] Hmap; try discriminate.
  - reflexivity.
  - simpl in *. inversion Hmap. f_equal. now apply IH.
Qed.

(** The mapper changes contents only. *)
Lemma loadEnvToStruct_skeleton (lib : Library) (env : Env) (prefix tag : string) (fs : Struct) :
  skeleton (VStruct (fst (loadEnvToStruct lib env prefix tag fs))) = skeleton (VStruct fs).
Proof.
  revert fs.
  set (P := fun v : Value => forall f, skeleton (fst (loadField lib env prefix tag f v)) = skeleton v).
  set (Q := fun fs : Struct =>
              skeleton (VStruct (fst (loadEnvToStruct lib env prefix tag fs)))
              = skeleton (VStruct fs)).
  apply (Struct_nested_ind P Q).
  - intros v Hk f. destruct (CanSet f) eqn:Hset.
    + rewrite loadField_leaf by assumption. apply setFromEnv_skeleton.
    + now rewrite loadField_unexported.
  - intros sub Hsub f. destruct (CanSet f) eqn:Hset.
    + rewrite loadField_struct by assumption. exact Hsub.
    + now rewrite loadField_unexported.
  - reflexivity.
  - intros f v rest HP HQ. unfold Q in *. rewrite loadEnvToStruct_cons.
    specialize (HP f).
    destruct (loadField lib env prefix tag f v) as [v' [e|]]; simpl in *.
    + now rewrite HP.
    + destruct (loadEnvToStruct lib env prefix tag rest) as [rest' e']. simpl in *.
      rewrite HP. inversion HQ as [Hrest]. now rewrite Hrest.
Qed.

(** X1 (shape). The mapper changes contents only: the record it leaves has
    the same fields, with the same descriptors and the same types, at every
    level, whether it succeeds or fails. *)
Theorem mapper_keeps_shape (lib : Library) (env : Env) (prefix tag : string) (fs : Struct) :
  skeleton (VStruct (fst (loadEnvToStruct lib env prefix tag fs))) = skeleton (VStruct fs)
  /\ length (fst (loadEnvToStruct lib env prefix tag fs)) = length fs
  /\ map fst (fst (loadEnvToStruct lib env prefix tag fs)) = map fst fs.
Proof.
  pose proof (loadEnvToStruct_skeleton lib env prefix tag fs) as Hshape.
  split; [exact Hshape|].
  assert (Hnames : map fst (fst (loadEnvToStruct lib env prefix tag fs)) = map fst fs).
  { apply skeleton_descriptors. exact Hshape. }
  split; [|exact Hnames].
  apply (f_equal (@length StructField)) in Hnames. now rewrite !length_map in Hnames.
Qed.

(** Mapping again changes nothing more. *)
Lemma loadEnvToStruct_again (lib : Library) (env : Env) (prefix tag : string) (fs : Struct) :
  loadEnvToStruct lib env prefix tag (fst (loadEnvToStruct lib env prefix tag fs))
  = loadEnvToStruct lib env prefix tag fs.
Proof.
  revert fs.
  set (P := fun v : Value =>
              forall f, loadField lib env prefix tag f (fst (loadField lib env prefix tag f v))
                        = loadField lib env prefix tag f v).
  set (Q := fun fs : Struct =>
              loadEnvToStruct lib env prefix tag (fst (loadEnvToStruct lib env prefix tag fs))
              = loadEnvToStruct lib env prefix tag fs).
  apply (Struct_nested_ind P Q).
  - intros v Hk f. destruct (CanSet f) eqn:Hset.
    + rewrite (loadField_leaf lib env prefix tag f v) by assumption.
      rewrite loadField_leaf; [apply setFromEnv_again|assumption|].
      now rewrite setFromEnv_kind.
    + now rewrite !loadField_unexported.
  - intros sub Hsub f. destruct (CanSet f) eqn:Hset.
    + rewrite (loadField_struct lib env prefix tag f sub) by assumption. cbn [fst].
      rewrite loadField_struct by assumption. unfold Q in Hsub. now rewrite Hsub.
    + now rewrite !loadField_unexported.
  - reflexivity.
  - intros f v rest HP HQ. unfold Q in *. specialize (HP f).
    rewrite (loadEnvToStruct_cons lib env prefix tag f v rest).
    destruct (loadField lib env prefix tag f v) as [v' [e|]] eqn:Hf; simpl in *.
    + now rewrite HP.
    + destruct (loadEnvToStruct lib env prefix tag rest) as [rest' e'] eqn:Hrest. simpl in *.
      now rewrite HP, HQ.
Qed.

(** X2 (idempotence). Mapping the record the mapper left, in the same
    environment, gives that record again, with the same outcome: the
    overlay has nothing more to add, and a failed overlay fails again at
    the same field with the same error. *)
Theorem mapper_idempotent (lib : Library) (env : Env) (prefix tag : string) (fs : Struct) :
  loadEnvToStruct lib env prefix tag (fst (loadEnvToStruct lib env prefix tag fs))
  = loadEnvToStruct lib env prefix tag fs.
Proof. apply loadEnvToStruct_again. Qed.

Section MapperFrame.

Variable lib : Library.
Variables prefix tag : string.

(** The lookup consults the environment at the prefixed annotation only,
    and only through [os.Getenv]. *)
Lemma setFromEnv_ext (env1 env2 : Env) f v :
  (forall a, Getenv env1 (prefix +:+ a) = Getenv env2 (prefix +:+ a)) ->
  setFromEnv lib env1 prefix tag f v = setFromEnv lib env2 prefix tag f v.
Proof.
  intros Hsame. unfold setFromEnv.
  destruct (Lookup (Tag f) tag) as [envVar|]; [|reflexivity].
  now rewrite Hsame.
Qed.

Lemma loadEnvToStruct_ext (env1 env2 : Env) :
  (forall a, Getenv env1 (prefix +:+ a) = Getenv env2 (prefix +:+ a)) ->
  forall fs, loadEnvToStruct lib env1 prefix tag fs = loadEnvToStruct lib env2 prefix tag fs.
Proof.
  intros Hsame.
  set (P := fun v : Value =>
              forall f, loadField lib env1 prefix tag f v = loadField lib env2 prefix tag f v).
  set (Q := fun fs : Struct =>
              loadEnvToStruct lib env1 prefix tag fs = loadEnvToStruct lib env2 prefix tag fs).
  apply (Struct_nested_ind P Q).
  - intros v Hk f. destruct (CanSet f) eqn:Hset.
    + rewrite !loadField_leaf by assumption. now apply setFromEnv_ext.
    + now rewrite !loadField_unexported.
  - intros sub Hsub f. destruct (CanSet f) eqn:Hset.
    + rewrite !loadField_struct by assumption. unfold Q in Hsub. now rewrite Hsub.
    + now rewrite !loadField_unexported.
  - reflexivity.
  - intros f v rest HP HQ. unfold Q in *.
    rewrite !loadEnvToStruct_cons, HP, HQ. reflexivity.
Qed.

(** With nothing to read, the lookup leaves the field alone. *)
Lemma setFromEnv_nothing (env : Env) f v :
  (forall a, Getenv env (prefix +:+ a) = "") ->
  setFromEnv lib env prefix tag f v = (v, None).
Proof.
  intros Hnone. unfold setFromEnv.
  destruct (Lookup (Tag f) tag) as [envVar|]; [|reflexivity].
  rewrite Hnone. destruct (String.eqb envVar ""); reflexivity.
Qed.

Lemma loadEnvToStruct_nothing (env : Env) :
  (forall a, Getenv env (prefix +:+ a) = "") ->
  forall fs, loadEnvToStruct lib env prefix tag fs = (fs, None).
Proof.
  intros Hnone.
  set (P := fun v : Value => forall f, loadField lib env prefix tag f v = (v, None)).
  set (Q := fun fs : Struct => loadEnvToStruct lib env prefix tag fs = (fs, None)).
  apply (Struct_nested_ind P Q).
  - intros v Hk f. destruct (CanSet f) eqn:Hset.
    + rewrite loadField_leaf by assumption. now apply setFromEnv_nothing.
    + now rewrite loadField_unexported.
  - intros sub Hsub f. destruct (CanSet f) eqn:Hset.
    + rewrite loadField_struct by assumption. unfold Q in Hsub. now rewrite Hsub.
    + now rewrite loadField_unexported.
  - reflexivity.
  - intros f v rest HP HQ. unfold Q in *.
    rewrite loadEnvToStruct_cons, HP, HQ. reflexivity.
Qed.

(** A field whose own loop iteration changes nothing is the same after the
    mapper, wherever it is nested. *)
Lemma fieldAt_kept (env : Env) (path : list nat) (fs : Struct) f v :
  fieldAt path fs = Some (f, v) ->
  fst (loadField lib env prefix tag f v) = v ->
  fieldAt path (fst (loadEnvToStruct lib env prefix tag fs)) = Some (f, v).
Proof.
  intros Hat Hsame. revert fs Hat.
  induction path as [|i rest IH]; intros fs Hat; [discriminate|].
  destruct rest as [|j rest].
  - simpl in *.
    destruct (loadEnvToStruct_lookup lib env prefix tag fs i f v Hat) as [H|H];
      rewrite H; [reflexivity|now rewrite Hsame].
  - change (fieldAt (i :: j :: rest) fs)
      with (match fs !! i with
            | Some (_, VStruct sub) => fieldAt (j :: rest) sub
            | _ => None
            end) in Hat.
    change (fieldAt (i :: j :: rest) (fst (loadEnvToStruct lib env prefix tag fs)))
      with (match fst (loadEnvToStruct lib env prefix tag fs) !! i with
            | Some (_, VStruct sub) => fieldAt (j :: rest) sub
            | _ => None
            end).
    destruct (fs !! i) as [[g vi]|] eqn:Hi; [|discriminate].
    destruct vi; try discriminate.
    destruct (loadEnvToStruct_lookup lib env prefix tag fs i g _ Hi) as [H|H];
      rewrite H; [exact Hat|].
    destruct (CanSet g) eqn:Hset.
    + rewrite loadField_struct by assumption. simpl. apply IH. exact Hat.
    + rewrite loadField_unexported by assumption. exact Hat.
Qed.

End MapperFrame.

(** X3 (nothing to read). When no variable with the prefix has a non-empty
    value, the mapper returns the record as it was, and no error. *)
Theorem mapper_without_variables (lib : Library) (env : Env) (prefix tag : string) (fs : Struct) :
  (forall a, Getenv env (prefix +:+ a) = "") ->
  loadEnvToStruct lib env prefix tag fs = (fs, None).
Proof. intros Hnone. now apply loadEnvToStruct_nothing. Qed.

Lemma mapper_without_variables_witness :
  loadEnvToStruct testLibrary ∅ "TEST_" "env" testConfig = (testConfig, None).
Proof.
  apply (mapper_without_variables testLibrary ∅ "TEST_" "env" testConfig).
  intros a. reflexivity.
Defined.

(** X4 (what the mapper reads). The mapper's result depends on the
    environment only through [os.Getenv] at the names that start with the
    prefix: variables without the prefix do not matter, and a variable set
    to the empty string is the same as an unset one. *)
Theorem mapper_reads_prefixed (lib : Library) (env1 env2 : Env) (prefix tag : string)
    (fs : Struct) :
  (forall a, Getenv env1 (prefix +:+ a) = Getenv env2 (prefix +:+ a)) ->
  loadEnvToStruct lib env1 prefix tag fs = loadEnvToStruct lib env2 prefix tag fs.
Proof. intros Hsame. now apply loadEnvToStruct_ext. Qed.

Lemma mapper_reads_prefixed_witness :
  loadEnvToStruct testLibrary {[ "TEST_NAME" := ""; "PORT" := "not-an-int" ]} "TEST_" "env" testConfig
  = loadEnvToStruct testLibrary ∅ "TEST_" "env" testConfig.
Proof.
  apply mapper_reads_prefixed. intros a. unfold Getenv.
  rewrite lookup_insert. case_decide as H1; [reflexivity|].
  rewrite lookup_singleton. case_decide as H2; [discriminate H2|]. reflexivity.
Defined.

(** X5 (fields the mapper passes over). A field that cannot be set is left
    as it was, with everything inside it; so is a field that is not a
    record and has no annotation under the tag name, or an empty one:
    whatever the environment holds, and whether the mapper succeeds or
    fails. *)
Theorem mapper_passes_over (lib : Library) (env : Env) (prefix tag : string)
    (path : list nat) (fs : Struct) (f : StructField) (v : Value) :
  fieldAt path fs = Some (f, v) ->
  CanSet f = false \/
  (KindOf v <> KStruct /\ (Lookup (Tag f) tag = None \/ Lookup (Tag f) tag = Some "")) ->
  fieldAt path (fst (loadEnvToStruct lib env prefix tag fs)) = Some (f, v).
Proof.
  intros Hat Hwhy. apply fieldAt_kept; [exact Hat|].
  destruct Hwhy as [Hset|[Hk Htag]].
  - now rewrite loadField_unexported.
  - destruct (CanSet f) eqn:Hset; [|now rewrite loadField_unexported].
    rewrite loadField_leaf by assumption. unfold setFromEnv.
    destruct Htag as [-> | ->]; reflexivity.
Qed.

Lemma mapper_passes_over_witness :
  fieldAt [1%nat]
    (fst (loadEnvToStruct testLibrary
            {[ "TEST_NAME" := "new-name"; "TEST_UNEXPORTED" := "should-be-ignored" ]}
            "TEST_" "env" passedOverConfig))
  = Some (mkStructField "unexportedField" false [("env", "UNEXPORTED")], VString "default").
Proof.
  apply (mapper_passes_over testLibrary _ "TEST_" "env" [1%nat] passedOverConfig).
  - reflexivity.
  - left. reflexivity.
Defined.

Section MapperSuccess.

Variable lib : Library.
Variable env : Env.
Variables prefix tag : string.

(** When the mapper succeeds, every field has been through its loop
    iteration, and none of the iterations failed. *)
Lemma loadEnvToStruct_ok_lookup (fs fs' : Struct) i f v :
  loadEnvToStruct lib env prefix tag fs = (fs', None) ->
  fs !! i = Some (f, v) ->
  fs' !! i = Some (f, fst (loadField lib env prefix tag f v)) /\
  snd (loadField lib env prefix tag f v) = None.
Proof.
  revert fs' i. induction fs as [|[f0 v0] rest IH]; intros fs' i Hrun Hi; [discriminate|].
  rewrite loadEnvToStruct_cons in Hrun.
  destruct (loadField lib env prefix tag f0 v0) as [v0' [e|]] eqn:Hf0; [discriminate|].
  destruct (loadEnvToStruct lib env prefix tag rest) as [rest' [e|]] eqn:Hrest; [discriminate|].
  inversion Hrun; subst fs'; clear Hrun.
  destruct i as [|i]; simpl in *.
  - inversion Hi; subst. rewrite Hf0. auto.
  - now apply IH.
Qed.

(** On success the field at a path the mapper gets to holds what the
    lookup made of it. *)
Lemma mapped_fieldAt (path : list nat) (fs fs' : Struct) f v :
  loadEnvToStruct lib env prefix tag fs = (fs', None) ->
  fieldAt path fs = Some (f, v) ->
  settableAt path fs = true ->
  KindOf v <> KStruct ->
  fieldAt path fs' = Some (f, fst (setFromEnv lib env prefix tag f v)) /\
  snd (setFromEnv lib env prefix tag f v) = None.
Proof.
  revert fs fs'. induction path as [|i rest IH]; intros fs fs' Hrun Hat Hset Hk; [discriminate|].
  destruct rest as [|j rest].
  - simpl in *. rewrite Hat in Hset.
    destruct (loadEnvToStruct_ok_lookup fs fs' i f v Hrun Hat) as [Hi Hok].
    rewrite loadField_leaf in Hi, Hok by assumption. auto.
  - change (fieldAt (i :: j :: rest) fs)
      with (match fs !! i with
            | Some (_, VStruct sub) => fieldAt (j :: rest) sub
            | _ => None
            end) in Hat.
    change (settableAt (i :: j :: rest) fs)
      with (match fs !! i with
            | Some (g, VStruct sub) => CanSet g && settableAt (j :: rest) sub
            | _ => false
            end) in Hset.
    change (fieldAt (i :: j :: rest) fs')
      with (match fs' !! i with
            | Some (_, VStruct sub) => fieldAt (j :: rest) sub
            | _ => None
            end).
    destruct (fs !! i) as [[g vi]|] eqn:Hi; [|discriminate].
    destruct vi; try discriminate.
    apply andb_true_iff in Hset. destruct Hset as [Hg Hset].
    destruct (loadEnvToStruct_ok_lookup fs fs' i g _ Hrun Hi) as [Hi' Hok].
    rewrite loadField_struct in Hi', Hok by assumption.
    destruct (loadEnvToStruct lib env prefix tag fields) as [sub' [e|]] eqn:Hsub;
      simpl in Hi', Hok; [discriminate|].
    rewrite Hi'. now apply (IH fields sub').
Qed.

End MapperSuccess.

(** X6 (nothing skipped on success). When the mapper returns no error,
    every field it gets to (settable, below settable record fields) that is
    not a record and whose annotation names a variable with a non-empty
    value has been coerced from that value: the field holds the result of
    the coercion, and the coercion did not fail. *)
Theorem mapper_success_assigns (lib : Library) (env : Env) (prefix tag : string)
    (path : list nat) (fs fs' : Struct) (f : StructField) (v : Value) (envVar : string) :
  loadEnvToStruct lib env prefix tag fs = (fs', None) ->
  fieldAt path fs = Some (f, v) ->
  settableAt path fs = true ->
  KindOf v <> KStruct ->
  Lookup (Tag f) tag = Some envVar ->
  envVar <> "" ->
  Getenv env (prefix +:+ envVar) <> "" ->
  exists v',
    coerce lib envVar (Getenv env (prefix +:+ envVar)) v = Ok v' /\
    fieldAt path fs' = Some (f, v').
Proof.
  intros Hrun Hat Hset Hk Htag Hvar Hval.
  destruct (mapped_fieldAt lib env prefix tag path fs fs' f v Hrun Hat Hset Hk) as [Hat' Hok].
  rewrite (setFromEnv_bound lib env prefix tag f v envVar) in Hat', Hok by assumption.
  destruct (coerce lib envVar (Getenv env (prefix +:+ envVar)) v) as [v'|e]; [|discriminate].
  eauto.
Qed.

Lemma mapper_success_assigns_witness :
  exists v',
    coerce testLibrary "VALUE" (Getenv {[ "TEST_VALUE" := "nested-value" ]} ("TEST_" +:+ "VALUE"))
      (VString "default") = Ok v' /\
    fieldAt [1; 0]%nat
      (fst (loadEnvToStruct testLibrary {[ "TEST_VALUE" := "nested-value" ]} "TEST_" "env"
              nestedConfig))
    = Some (field "Value" [("env", "VALUE")], v').
Proof.
  apply (mapper_success_assigns testLibrary {[ "TEST_VALUE" := "nested-value" ]} "TEST_" "env"
           [1; 0]%nat nestedConfig); try reflexivity; discriminate.
Defined.

(** ** The locator as a whole *)

(** Trying a path touches nothing but the environment and the trace. *)
Lemma tryPath_frame (st : World * bool) (p : Path * string) :
  w_cwd (fst (tryPath st p)) = w_cwd (fst st) /\
  w_readFile (fst (tryPath st p)) = w_readFile (fst st).
Proof.
  destruct st as [w found]. unfold tryPath, godotenv_Load.
  destruct (w_stat w p); [|auto].
  destruct (w_dotenv w p); auto.
Qed.

Lemma fold_tryPath_frame (l : list (Path * string)) (st : World * bool) :
  w_cwd (fst (fold_left tryPath l st)) = w_cwd (fst st) /\
  w_readFile (fst (fold_left tryPath l st)) = w_readFile (fst st).
Proof.
  revert st. induction l as [|p l IH]; intros st; [auto|].
  simpl. destruct (IH (tryPath st p)) as [-> ->]. apply tryPath_frame.
Qed.

(** A candidate that is not found or does not load changes nothing. *)
Lemma tryPath_skip (st : World * bool) (p : Path * string) :
  ~ loads (fst st) p -> tryPath st p = st.
Proof.
  destruct st as [w found]. unfold tryPath, godotenv_Load, loads. simpl. intros Hno.
  destruct (w_stat w p) eqn:Hstat; [|reflexivity].
  destruct (w_dotenv w p) eqn:Hfile; [|reflexivity].
  exfalso. apply Hno. eauto.
Qed.

Lemma fold_tryPath_skip (l : list (Path * string)) (st : World * bool) :
  (forall p, p ∈ l -> ~ loads (fst st) p) -> fold_left tryPath l st = st.
Proof.
  induction l as [|p l IH]; intros Hno; [reflexivity|].
  simpl. rewrite tryPath_skip by (apply Hno; left).
  apply IH. intros q Hq. apply Hno. now right.
Qed.

(** Where a binding of the new environment comes from. *)
Lemma tryPath_origin (st : World * bool) (p : Path * string) (k v : string) :
  w_env (fst (tryPath st p)) !! k = Some v ->
  w_env (fst st) !! k = Some v \/ defines (fst st) p k v.
Proof.
  destruct st as [w found]. unfold tryPath, godotenv_Load, defines. simpl.
  destruct (w_stat w p) eqn:Hstat; [|auto].
  destruct (w_dotenv w p) as [assignments|] eqn:Hfile; [|auto].
  simpl. intros Hk. apply lookup_union_Some_raw in Hk.
  destruct Hk as [Hk|[_ Hk]]; [auto|]. right. eauto.
Qed.

Lemma fold_tryPath_origin (l : list (Path * string)) (st : World * bool) (k v : string) :
  w_env (fst (fold_left tryPath l st)) !! k = Some v ->
  w_env (fst st) !! k = Some v \/ exists p, p ∈ l /\ defines (fst st) p k v.
Proof.
  revert st. induction l as [|p l IH]; intros st Hk; [now left|].
  simpl in Hk. apply IH in Hk. destruct (tryPath_files st p) as [Hstat Hfile].
  destruct Hk as [Hk|(q & Hq & Hdef)].
  - apply tryPath_origin in Hk. destruct Hk as [Hk|Hdef]; [now left|].
    right. exists p. split; [left|exact Hdef].
  - right. exists q. split; [now right|].
    now rewrite (defines_same_files (fst st)) in Hdef.
Qed.

(** The locator's result, taken apart. *)
Lemma loadEnvFromAncestors_inv (files : list string) (w w' : World) (r : option error)
    (fuel : nat) :
  loadEnvFromAncestors fuel files w = Some (w', r) ->
  (exists e, w_cwd w = Err e /\ w' = w /\ r = Some e) \/
  (exists dir w1 found,
     w_cwd w = Ok dir /\ (length dir < fuel)%nat /\ r = None /\
     fold_left tryPath (searchOrder dir files) (w, false) = (w1, found) /\
     w' = if found then w1 else emit w1 LogNoneFound).
Proof.
  unfold loadEnvFromAncestors. destruct (w_cwd w) as [dir|e] eqn:Hcwd.
  - destruct (le_lt_dec fuel (length dir)) as [Hshort|Hlong].
    + rewrite walk_short by exact Hshort. discriminate.
    + rewrite walk_searchOrder by exact Hlong.
      destruct (fold_left tryPath (searchOrder dir files) (w, false)) as [w1 found] eqn:Hfold.
      intros H. inversion H; subst; clear H. right. exists dir, w1, found. auto.
  - inversion 1; subst. left. eauto.
Qed.

Lemma emit_fields (w : World) (ev : Event) :
  w_env (emit w ev) = w_env w /\ w_cwd (emit w ev) = w_cwd w /\
  w_stat (emit w ev) = w_stat w /\ w_dotenv (emit w ev) = w_dotenv w /\
  w_readFile (emit w ev) = w_readFile w.
Proof. repeat split. Qed.

(** X7 (the locator adds, and only from files). The locator leaves the
    working directory and the files as they are, and every variable of
    the environment afterwards either was there before or is assigned by
    a candidate of the search order whose file is found and loads. *)
Theorem locator_only_adds (files : list string) (w w' : World) (r : option error) (fuel : nat) :
  loadEnvFromAncestors fuel files w = Some (w', r) ->
  w_cwd w' = w_cwd w /\ w_stat w' = w_stat w /\ w_dotenv w' = w_dotenv w /\
  w_readFile w' = w_readFile w /\
  forall k v,
    w_env w' !! k = Some v ->
    w_env w !! k = Some v \/
    exists cwd p, w_cwd w = Ok cwd /\ p ∈ searchOrder cwd files /\ defines w p k v.
Proof.
  intros Hrun. apply loadEnvFromAncestors_inv in Hrun.
  destruct Hrun as [(e & _ & -> & _)|(dir & w1 & found & Hdir & _ & _ & Hfold & ->)].
  - repeat split; auto.
  - destruct (fold_tryPath_files (searchOrder dir files) (w, false)) as [Hstat Hfile].
    destruct (fold_tryPath_frame (searchOrder dir files) (w, false)) as [Hcwd Hread].
    pose proof (fold_tryPath_origin (searchOrder dir files) (w, false)) as Horigin.
    rewrite Hfold in *. simpl in *.
    assert (Hsame : w_env (if found then w1 else emit w1 LogNoneFound) = w_env w1
                    /\ w_cwd (if found then w1 else emit w1 LogNoneFound) = w_cwd w1
                    /\ w_stat (if found then w1 else emit w1 LogNoneFound) = w_stat w1
                    /\ w_dotenv (if found then w1 else emit w1 LogNoneFound) = w_dotenv w1
                    /\ w_readFile (if found then w1 else emit w1 LogNoneFound) = w_readFile w1)
      by (destruct found; repeat split).
    destruct Hsame as (-> & -> & -> & -> & ->).
    repeat split; auto.
    intros k v Hk. apply Horigin in Hk. destruct Hk as [Hk|(p & Hp & Hdef)]; [now left|].
    right. exists dir, p. auto.
Qed.


Lemma locator_only_adds_witness :
  w_stat serviceWorld = w_stat testWorld /\
  (w_env testWorld !! "TEST_FACTOR" = Some "7.7" \/
   exists cwd p,
     w_cwd testWorld = Ok cwd /\ p ∈ searchOrder cwd [".env.test1"; ".env.test2"] /\
     defines testWorld p "TEST_FACTOR" "7.7").
Proof.
  destruct (locator_only_adds [".env.test1"; ".env.test2"] testWorld serviceWorld None 3 eq_refl)
    as (_ & Hstat & _ & _ & Horigin).
  split; [exact Hstat|]. apply Horigin. reflexivity.
Defined.

(** X8 (nothing to load). From a known working directory, when no
    candidate of the search order is found and loads (no candidate names,
    files that are missing, a directory in a file's place, a file that
    does not parse), the locator succeeds, leaves the environment as it
    was, and all it does is log that it found no file. *)
Theorem locator_finds_nothing (files : list string) (w : World) (cwd : Path) (fuel : nat) :
  w_cwd w = Ok cwd ->
  (length cwd < fuel)%nat ->
  (forall p, p ∈ searchOrder cwd files -> ~ loads w p) ->
  loadEnvFromAncestors fuel files w = Some (emit w LogNoneFound, None).
Proof.
  intros Hcwd Hfuel Hno. unfold loadEnvFromAncestors. rewrite Hcwd.
  rewrite walk_searchOrder by exact Hfuel.
  rewrite fold_tryPath_skip by exact Hno. reflexivity.
Qed.

Lemma locator_finds_nothing_witness :
  loadEnvFromAncestors 3 [] testWorld = Some (emit testWorld LogNoneFound, None).
Proof.
  apply (locator_finds_nothing [] testWorld ["home"; "app"] 3 eq_refl).
  - simpl. lia.
  - intros p Hp. inversion Hp.
Defined.

(** An environment that holds every key of every candidate that loads. *)
Lemma tryPath_saturated (st : World * bool) (p : Path * string) :
  (forall m k, w_stat (fst st) p = true -> w_dotenv (fst st) p = Some m ->
               is_Some (m !! k) -> is_Some (w_env (fst st) !! k)) ->
  w_env (fst (tryPath st p)) = w_env (fst st).
Proof.
  destruct st as [w found]. unfold tryPath, godotenv_Load. simpl. intros Hcov.
  destruct (w_stat w p) eqn:Hstat; [|reflexivity].
  destruct (w_dotenv w p) as [m|] eqn:Hfile; [|reflexivity].
  simpl. apply map_eq. intros k.
  destruct (w_env w !! k) as [v|] eqn:Hk.
  - now apply lookup_union_Some_l.
  - rewrite lookup_union_r by exact Hk.
    destruct (m !! k) as [v|] eqn:Hm; [|reflexivity].
    destruct (Hcov m k eq_refl eq_refl) as [v' Hv']; [eauto|]. congruence.
Qed.

Lemma fold_tryPath_saturated (l : list (Path * string)) (st : World * bool) :
  (forall p m k, p ∈ l -> w_stat (fst st) p = true -> w_dotenv (fst st) p = Some m ->
                 is_Some (m !! k) -> is_Some (w_env (fst st) !! k)) ->
  w_env (fst (fold_left tryPath l st)) = w_env (fst st).
Proof.
  revert st. induction l as [|p l IH]; intros st Hcov; [reflexivity|].
  simpl. destruct (tryPath_files st p) as [Hstat Hfile].
  assert (Henv : w_env (fst (tryPath st p)) = w_env (fst st)).
  { apply tryPath_saturated. intros m k. apply Hcov. left. }
  rewrite IH; [exact Henv|].
  intros q m k Hq. rewrite Hstat, Hfile, Henv. apply Hcov. now right.
Qed.

(** After the search, the environment holds every key of every candidate
    that loaded. *)
Lemma fold_tryPath_covers (l : list (Path * string)) (st : World * bool) p m k :
  p ∈ l -> w_stat (fst st) p = true -> w_dotenv (fst st) p = Some m ->
  is_Some (m !! k) ->
  is_Some (w_env (fst (fold_left tryPath l st)) !! k).
Proof.
  revert st. induction l as [|q l IH]; intros st Hp Hstat Hfile Hk; [inversion Hp|].
  simpl. destruct (tryPath_files st q) as [Hstat' Hfile'].
  apply elem_of_cons in Hp. destruct Hp as [->|Hp].
  - destruct Hk as [v Hk].
    destruct (w_env (fst st) !! k) as [v0|] eqn:Hold.
    + exists v0. apply fold_tryPath_keeps. now apply tryPath_keeps.
    + exists v. apply fold_tryPath_keeps. apply tryPath_sets; [exact Hold|].
      split; [exact Hstat|]. eauto.
  - apply IH; [exact Hp| |  |exact Hk].
    + now rewrite Hstat'.
    + now rewrite Hfile'.
Qed.

(** The files have nothing more to add. *)
Lemma loadEnvFromAncestors_again (files : list string) (w w1 : World) (r : option error) (fuel : nat) :
  loadEnvFromAncestors fuel files w = Some (w1, r) ->
  exists w2,
    loadEnvFromAncestors fuel files w1 = Some (w2, r) /\ w_env w2 = w_env w1.
Proof.
  intros Hrun. apply loadEnvFromAncestors_inv in Hrun.
  destruct Hrun as [(e & He & -> & ->)|(dir & w0 & found & Hdir & Hfuel & -> & Hfold & Hw1)].
  - exists w. split; [|reflexivity]. unfold loadEnvFromAncestors. now rewrite He.
  - destruct (fold_tryPath_files (searchOrder dir files) (w, false)) as [Hstat Hfile].
    destruct (fold_tryPath_frame (searchOrder dir files) (w, false)) as [Hcwd _].
    pose proof (fold_tryPath_covers (searchOrder dir files) (w, false)) as Hcov.
    rewrite Hfold in *. simpl in *.
    assert (Hsame : w_env w1 = w_env w0 /\ w_cwd w1 = w_cwd w /\
                    w_stat w1 = w_stat w /\ w_dotenv w1 = w_dotenv w).
    { subst w1. destruct found; simpl; auto. }
    destruct Hsame as (Henv1 & Hcwd1 & Hstat1 & Hfile1).
    assert (Hrun2 : w_cwd w1 = Ok dir) by now rewrite Hcwd1.
    destruct (loadEnvFromAncestors_run files w1 dir fuel Hrun2 Hfuel) as (w2 & Hrun & Henv2).
    exists w2. split; [exact Hrun|].
    rewrite Henv2. apply (fold_tryPath_saturated (searchOrder dir files) (w1, false)).
    simpl. intros p m k Hp Hs Hf Hk. rewrite Henv1.
    apply (Hcov p m k Hp); [now rewrite <- Hstat1|now rewrite <- Hfile1|exact Hk].
Qed.

(** X9 (running the locator again). A second run of the locator, after a
    first one, ends like the first and leaves the environment the first
    one left: the files have nothing more to add. *)
Theorem locator_idempotent (files : list string) (w w1 : World) (r : option error) (fuel : nat) :
  loadEnvFromAncestors fuel files w = Some (w1, r) ->
  exists w2,
    loadEnvFromAncestors fuel files w1 = Some (w2, r) /\ w_env w2 = w_env w1.
Proof. apply loadEnvFromAncestors_again. Qed.

Lemma locator_idempotent_witness :
  exists w2,
    loadEnvFromAncestors 3 [".env.test1"; ".env.test2"] serviceWorld = Some (w2, None) /\
    w_env w2 = w_env serviceWorld.
Proof.
  apply (locator_idempotent [".env.test1"; ".env.test2"] testWorld serviceWorld None 3).
  reflexivity.
Defined.

(** ** The builder as a whole *)

Section BuilderWhole.

Variable lib : Library.

(** [WithEnv] on a clean builder, taken apart. *)
Lemma WithEnv_clean_inv (fuel : nat) (b b' : Builder) (w w' : World) :
  err b = None ->
  WithEnv lib fuel b w = Some (b', w') ->
  exists r,
    loadEnvFromAncestors fuel (envFiles b) w = Some (w', r) /\
    b' = match r with
         | Some e => set_err b (config b) (Wrapf "failed to load environment variables" e)
         | None =>
             match loadEnvToStruct lib (w_env w') (envPrefix b) (envTag b) (config b) with
             | (cfg, Some e) =>
                 set_err b cfg (Wrapf "failed to override configuration from environment" e)
             | (cfg, None) => set_config b cfg
             end
         end.
Proof.
  intros Hclean. unfold WithEnv. rewrite Hclean.
  destruct (loadEnvFromAncestors fuel (envFiles b) w) as [[w1 [e|]]|]; [| |discriminate].
  - inversion 1; subst. eauto.
  - destruct (loadEnvToStruct lib (w_env w1) (envPrefix b) (envTag b) (config b))
      as [cfg [e|]] eqn:Hmap; inversion 1; subst; exists None; rewrite Hmap; auto.
Qed.

(** No step of the chain changes the prefix, the tag or the candidate
    names, the working directory or the files; and no step removes a
    variable from the environment or changes its value. *)
Lemma runOp_frame (op : ChainOp) (b b' : Builder) (w w' : World) :
  runOp lib op (b, w) = Some (b', w') ->
  (envPrefix b' = envPrefix b /\ envTag b' = envTag b /\ envFiles b' = envFiles b) /\
  (w_cwd w' = w_cwd w /\ w_stat w' = w_stat w /\ w_dotenv w' = w_dotenv w /\
   w_readFile w' = w_readFile w) /\
  (forall k v, w_env w !! k = Some v -> w_env w' !! k = Some v).
Proof.
  destruct op as [p|fuel]; simpl.
  - unfold LoadFile. destruct (err b); [inversion 1; subst; auto 10|].
    destruct p as [path|]; [|inversion 1; subst; auto 10].
    destruct (String.eqb path ""); [inversion 1; subst; auto 10|].
    destruct (w_readFile w path); [|inversion 1; subst; auto 10].
    destruct (json_Unmarshal lib a (config b)) as [cfg [e|]]; inversion 1; subst; auto 10.
  - destruct (err b) as [e|] eqn:Hclean.
    + unfold WithEnv. rewrite Hclean. inversion 1; subst; auto 10.
    + intros Hrun. apply WithEnv_clean_inv in Hrun; [|exact Hclean].
      destruct Hrun as (r & Hloc & ->).
      pose proof (loadEnvFromAncestors_inv _ _ _ _ _ Hloc) as Hinv.
      assert (Henv : forall k v, w_env w !! k = Some v -> w_env w' !! k = Some v).
      { destruct Hinv as [(e & _ & -> & _)|(dir & w1 & found & _ & _ & _ & Hfold & ->)]; [auto|].
        intros k v Hk.
        pose proof (fold_tryPath_keeps (searchOrder dir (envFiles b)) (w, false) k v Hk) as H.
        rewrite Hfold in H. destruct found; exact H. }
      assert (Hworld : w_cwd w' = w_cwd w /\ w_stat w' = w_stat w /\
                       w_dotenv w' = w_dotenv w /\ w_readFile w' = w_readFile w).
      { destruct Hinv as [(e & _ & -> & _)|(dir & w1 & found & _ & _ & _ & Hfold & ->)]; [auto|].
        destruct (fold_tryPath_files (searchOrder dir (envFiles b)) (w, false)) as [Hs Hf].
        destruct (fold_tryPath_frame (searchOrder dir (envFiles b)) (w, false)) as [Hc Hr].
        rewrite Hfold in *. simpl in *. destruct found; auto. }
      split; [|split; assumption].
      destruct r as [e|]; [auto|].
      destruct (loadEnvToStruct lib (w_env w') (envPrefix b) (envTag b) (config b))
        as [cfg [e|]]; auto.
Qed.

(** A step never clears the error. *)
Lemma runOp_err (op : ChainOp) (b b' : Builder) (w w' : World) (e : error) :
  runOp lib op (b, w) = Some (b', w') -> err b = Some e -> err b' = Some e.
Proof.
  intros Hrun He. destruct op as [p|fuel]; simpl in Hrun.
  - unfold LoadFile in Hrun. rewrite He in Hrun. inversion Hrun; subst. exact He.
  - unfold WithEnv in Hrun. rewrite He in Hrun. inversion Hrun; subst. exact He.
Qed.

End BuilderWhole.

(** X10 (what a chain keeps). Whatever steps are chained, the builder's
    prefix, tag name and candidate names stay as [New] set them, the working
    directory and the files are not touched, every variable of the
    environment keeps its value, and an error, once recorded, is the
    builder's error at the end. *)
Theorem chain_keeps (lib : Library) (ops : list ChainOp) (b b' : Builder) (w w' : World) :
  runChain lib ops (b, w) = Some (b', w') ->
  (envPrefix b' = envPrefix b /\ envTag b' = envTag b /\ envFiles b' = envFiles b) /\
  (w_cwd w' = w_cwd w /\ w_stat w' = w_stat w /\ w_dotenv w' = w_dotenv w /\
   w_readFile w' = w_readFile w) /\
  (forall k v, w_env w !! k = Some v -> w_env w' !! k = Some v) /\
  (forall e, err b = Some e -> err b' = Some e).
Proof.
  revert b w. induction ops as [|op ops IH]; intros b w Hrun.
  - inversion Hrun; subst. auto 10.
  - cbn [runChain] in Hrun.
    destruct (runOp lib op (b, w)) as [[b1 w1]|] eqn:Hop; [|discriminate].
    rename Hrun into Hrest.
    destruct (runOp_frame lib op b b1 w w1 Hop)
      as ((Hp & Ht & Hf) & (Hc & Hs & Hd & Hr) & Henv).
    destruct (IH b1 w1 Hrest)
      as ((Hp' & Ht' & Hf') & (Hc' & Hs' & Hd' & Hr') & Henv' & Herr').
    repeat split; try congruence.
    + intros k v Hk. auto.
    + intros e He. apply Herr'. now apply (runOp_err lib op b b1 w w1).
Qed.

Lemma chain_keeps_witness :
  (envPrefix serviceAfterEnv = envPrefix serviceBuilder /\
   envTag serviceAfterEnv = envTag serviceBuilder /\
   envFiles serviceAfterEnv = envFiles serviceBuilder) /\
  w_env serviceWorld !! "TEST_NAME" = Some "name-from-actual-env".
Proof.
  destruct (chain_keeps testLibrary [OpLoadFile (Some "config.json"); OpWithEnv 3]
              serviceBuilder serviceAfterEnv testWorld serviceWorld eq_refl)
    as (Hsettings & _ & Henv & _).
  split; [exact Hsettings|]. apply Henv. reflexivity.
Defined.

(** X11 (how [WithEnv] fails). On a clean builder: when the working
    directory is unknown, [WithEnv] records that error wrapped as "failed
    to load environment variables" and touches neither the record nor the
    world; from a known working directory it ends, the record it leaves is
    the mapper's, of the same shape as before, the builder is poisoned
    exactly when the mapper fails, and its error is then the coercion
    error wrapped once for each record field on the way to the failing
    field and once more as "failed to override configuration from
    environment". *)
Theorem WithEnv_outcome (lib : Library) (b : Builder) (w : World) :
  err b = None ->
  (forall e fuel,
     w_cwd w = Err e ->
     WithEnv lib fuel b w
     = Some (set_err b (config b) (Wrapf "failed to load environment variables" e), w)) /\
  (forall cwd fuel,
     w_cwd w = Ok cwd -> (length cwd < fuel)%nat ->
     exists b' w',
       WithEnv lib fuel b w = Some (b', w') /\
       config b' = fst (loadEnvToStruct lib (w_env w') (envPrefix b) (envTag b) (config b)) /\
       skeleton (VStruct (config b')) = skeleton (VStruct (config b)) /\
       (err b' = None <->
        snd (loadEnvToStruct lib (w_env w') (envPrefix b) (envTag b) (config b)) = None) /\
       (forall e, err b' = Some e ->
          exists path f v envVar cause,
            AbortsAt lib (w_env w') (envPrefix b) (envTag b) (config b) path f v (config b') /\
            Lookup (Tag f) (envTag b) = Some envVar /\
            e = Wrapf "failed to override configuration from environment"
                  (wrapPath path (Wrapf (coercionMsg v envVar) cause)))).
Proof.
  intros Hclean. split.
  - intros e fuel Hcwd. unfold WithEnv, loadEnvFromAncestors. now rewrite Hclean, Hcwd.
  - intros cwd fuel Hcwd Hfuel.
    destruct (loadEnvFromAncestors_run (envFiles b) w cwd fuel Hcwd Hfuel) as (w' & Hloc & _).
    unfold WithEnv. rewrite Hclean, Hloc.
    pose proof (loadEnvToStruct_skeleton lib (w_env w') (envPrefix b) (envTag b) (config b))
      as Hshape.
    destruct (loadEnvToStruct lib (w_env w') (envPrefix b) (envTag b) (config b))
      as [cfg [e|]] eqn:Hmap.
    + exists (set_err b cfg (Wrapf "failed to override configuration from environment" e)), w'.
      rewrite Hmap.
      split; [reflexivity|]. split; [reflexivity|]. split; [exact Hshape|].
      split; [split; discriminate|].
      intros e' He'. simpl in He'. inversion He'; subst e'; clear He'.
      destruct (loadEnvToStruct_aborts lib (w_env w') (envPrefix b) (envTag b) _ _ _ Hmap)
        as (path & f & v & envVar & cause & Hab & Htag & _ & _ & _ & ->).
      exists path, f, v, envVar, cause. auto.
    + exists (set_config b cfg), w'.
      rewrite Hmap.
      split; [reflexivity|]. split; [reflexivity|]. split; [exact Hshape|].
      split; [split; intros _; [reflexivity|exact Hclean]|].
      intros e' He'. simpl in He'. congruence.
Qed.

Lemma WithEnv_outcome_witness :
  WithEnv testLibrary 0 serviceBuilder lostWorld
  = Some (set_err serviceBuilder serviceConfig
            (Wrapf "failed to load environment variables"
               (ErrText "getwd: no such file or directory")), lostWorld).
Proof.
  apply (proj1 (WithEnv_outcome testLibrary serviceBuilder lostWorld eq_refl)).
  reflexivity.
Defined.

Section Precedence.

Variable lib : Library.

(** X12 (precedence, end to end). After [WithEnv] on a clean builder has
    succeeded, a field the mapper gets to that is not a record holds its
    old value when the variable its annotation names resolves to nothing,
    and otherwise the coercion of the resolved value; and the variable
    resolves, in this order, to its value in the process environment if it
    is set there (even to the empty string, which then leaves the field
    alone and is not replaced from any file), else to the value the first
    candidate in search order assigns to it, else to nothing. *)
Theorem env_overlay_precedence (fuel : nat) (b b' : Builder) (w w' : World)
    (path : list nat) (f : StructField) (v0 : Value) (envVar : string) :
  err b = None ->
  WithEnv lib fuel b w = Some (b', w') ->
  err b' = None ->
  fieldAt path (config b) = Some (f, v0) ->
  settableAt path (config b) = true ->
  KindOf v0 <> KStruct ->
  Lookup (Tag f) (envTag b) = Some envVar ->
  envVar <> "" ->
  (exists v1,
     fieldAt path (config b') = Some (f, v1) /\
     ((Getenv (w_env w') (envPrefix b +:+ envVar) = "" /\ v1 = v0) \/
      (Getenv (w_env w') (envPrefix b +:+ envVar) <> "" /\
       coerce lib envVar (Getenv (w_env w') (envPrefix b +:+ envVar)) v0 = Ok v1))) /\
  (forall v, w_env w !! (envPrefix b +:+ envVar) = Some v ->
             Getenv (w_env w') (envPrefix b +:+ envVar) = v) /\
  (forall cwd before p after v,
     w_cwd w = Ok cwd ->
     searchOrder cwd (envFiles b) = before ++ p :: after ->
     w_env w !! (envPrefix b +:+ envVar) = None ->
     (forall q, q ∈ before -> forall v', ~ defines w q (envPrefix b +:+ envVar) v') ->
     defines w p (envPrefix b +:+ envVar) v ->
     Getenv (w_env w') (envPrefix b +:+ envVar) = v) /\
  (forall cwd,
     w_cwd w = Ok cwd ->
     w_env w !! (envPrefix b +:+ envVar) = None ->
     (forall p, p ∈ searchOrder cwd (envFiles b) ->
                forall v, ~ defines w p (envPrefix b +:+ envVar) v) ->
     Getenv (w_env w') (envPrefix b +:+ envVar) = "").
Proof.
  intros Hclean Hrun Hok Hat Hset Hk Htag Hvar.
  apply WithEnv_clean_inv in Hrun; [|exact Hclean].
  destruct Hrun as (r & Hloc & Hb').
  apply loadEnvFromAncestors_env in Hloc.
  destruct Hloc as [(e & _ & _ & ->)|(dir & Hdir & _ & -> & Henv)];
    [subst b'; discriminate|].
  destruct (loadEnvToStruct lib (w_env w') (envPrefix b) (envTag b) (config b))
    as [cfg [e|]] eqn:Hmap; [subst b'; discriminate|].
  subst b'. simpl config.
  split; [|split; [|split]].
  - destruct (mapped_fieldAt lib (w_env w') (envPrefix b) (envTag b) path _ _ f v0
                Hmap Hat Hset Hk) as [Hat' Hnone].
    destruct (String.eqb_spec (Getenv (w_env w') (envPrefix b +:+ envVar)) "") as [Hempty|Hval].
    + rewrite (setFromEnv_empty lib _ _ _ f v0 envVar Htag Hempty) in Hat'.
      exists v0. split; [exact Hat'|]. left. auto.
    + rewrite (setFromEnv_bound lib _ _ _ f v0 envVar Htag Hvar Hval) in Hat', Hnone.
      destruct (coerce lib envVar (Getenv (w_env w') (envPrefix b +:+ envVar)) v0) as [v1|e];
        [|discriminate].
      exists v1. split; [exact Hat'|]. right. auto.
  - intros v Hv. unfold Getenv. rewrite Henv.
    now rewrite (fold_tryPath_keeps _ (w, false) _ v Hv).
  - intros cwd before p after v Hcwd Horder Hunset Hno Hp.
    rewrite Hcwd in Hdir. inversion Hdir; subst dir.
    unfold Getenv. rewrite Henv, Horder.
    now rewrite (fold_tryPath_first before after p (w, false) _ v Hunset Hno Hp).
  - intros cwd Hcwd Hunset Hno.
    rewrite Hcwd in Hdir. inversion Hdir; subst dir.
    unfold Getenv. rewrite Henv.
    now rewrite (fold_tryPath_unset _ (w, false) _ Hunset Hno).
Qed.

End Precedence.

Lemma env_overlay_precedence_witness :
  exists v1,
    fieldAt [1%nat] (config serviceAfterEnv)
    = Some (field "Port" [("json", "port"); ("env", "PORT")], v1) /\
    ((Getenv (w_env serviceWorld) ("TEST_" +:+ "PORT") = "" /\ v1 = VInt Int 8080) \/
     (Getenv (w_env serviceWorld) ("TEST_" +:+ "PORT") <> "" /\
      coerce testLibrary "PORT" (Getenv (w_env serviceWorld) ("TEST_" +:+ "PORT"))
        (VInt Int 8080) = Ok v1)).
Proof.
  refine (proj1 (env_overlay_precedence testLibrary 3 serviceBuilder serviceAfterEnv
                   testWorld serviceWorld [1%nat]
                   (field "Port" [("json", "port"); ("env", "PORT")]) (VInt Int 8080) "PORT"
                   eq_refl eq_refl eq_refl eq_refl eq_refl _ eq_refl _)); discriminate.
Defined.

(** The provided options set the prefix, the tag name or the candidate
    names, and nothing else. *)
Lemma provided_options_keep (opts : list BuilderOption) (b : Builder) :
  Forall ProvidedOption opts ->
  config (fold_left (fun b opt => opt b) opts b) = config b /\
  err (fold_left (fun b opt => opt b) opts b) = err b.
Proof.
  intros Hopts. revert b. induction Hopts as [|opt opts Hopt _ IH]; intros b; [auto|].
  simpl. destruct (IH (opt b)) as [-> ->]. destruct Hopt; auto.
Qed.

(** X13 (defaults alone). A builder made by [New] from the package's
    options is clean and holds the default record, so building it right
    away returns the default record exactly when the validator accepts it,
    and the wrapped validation error otherwise. *)
Theorem New_then_Build (lib : Library) (defaultConfig : Struct) (opts : list BuilderOption)
    (w : World) :
  Forall ProvidedOption opts ->
  config (New defaultConfig opts) = defaultConfig /\
  err (New defaultConfig opts) = None /\
  fst (Build lib (New defaultConfig opts) w)
  = match validator_Struct lib defaultConfig with
    | Some e => (None, Some (Wrapf "invalid configuration" e))
    | None => (Some defaultConfig, None)
    end.
Proof.
  intros Hopts. unfold New.
  destruct (provided_options_keep opts (mkBuilder defaultConfig None "" "env" []) Hopts)
    as [Hcfg Herr].
  simpl in Hcfg, Herr. split; [exact Hcfg|]. split; [exact Herr|].
  unfold Build. rewrite Herr, Hcfg.
  destruct (validator_Struct lib defaultConfig); reflexivity.
Qed.

Lemma New_then_Build_witness :
  fst (Build testLibrary
         (New testConfig [WithEnvPrefix "TEST_"; WithEnvTag "env"; WithEnvFiles [".env"]])
         testWorld)
  = (Some testConfig, None).
Proof.
  refine (proj2 (proj2 (New_then_Build testLibrary testConfig
                          [WithEnvPrefix "TEST_"; WithEnvTag "env"; WithEnvFiles [".env"]]
                          testWorld _))).
  repeat constructor.
Defined.

(** X14 (all or nothing). Whatever chain came before, [Build] returns
    either a record and no error, or no record and an error. It returns a
    record only when no step of the chain failed and the validator accepts
    the record, and the record is then the builder's; in every other case
    the error is the one the chain recorded or the wrapped validation
    error. *)
Theorem Build_all_or_nothing (lib : Library) (ops : list ChainOp) (b b' : Builder)
    (w w' : World) :
  runChain lib ops (b, w) = Some (b', w') ->
  (fst (Build lib b' w') = (Some (config b'), None) /\
   err b = None /\ err b' = None /\ validator_Struct lib (config b') = None) \/
  (exists e,
     fst (Build lib b' w') = (None, Some e) /\
     (err b' = Some e \/
      (err b' = None /\ exists ve,
         validator_Struct lib (config b') = Some ve /\ e = Wrapf "invalid configuration" ve))).
Proof.
  intros Hrun. unfold Build.
  destruct (err b') as [e|] eqn:Herr'.
  - right. exists e. auto.
  - destruct (validator_Struct lib (config b')) as [ve|] eqn:Hval.
    + right. exists (Wrapf "invalid configuration" ve). split; [reflexivity|]. right. eauto.
    + left. repeat split.
      destruct (err b) as [e|] eqn:Herr; [|reflexivity].
      rewrite (runChain_poisoned lib b w ops) in Hrun by (rewrite Herr; eauto).
      inversion Hrun; subst. congruence.
Qed.

Lemma Build_all_or_nothing_witness :
  (fst (Build testLibrary serviceAfterEnv serviceWorld) = (Some (config serviceAfterEnv), None) /\
   err serviceBuilder = None /\ err serviceAfterEnv = None /\
   validator_Struct testLibrary (config serviceAfterEnv) = None) \/
  (exists e,
     fst (Build testLibrary serviceAfterEnv serviceWorld) = (None, Some e) /\
     (err serviceAfterEnv = Some e \/
      (err serviceAfterEnv = None /\ exists ve,
         validator_Struct testLibrary (config serviceAfterEnv) = Some ve /\
         e = Wrapf "invalid configuration" ve))).
Proof.
  apply (Build_all_or_nothing testLibrary [OpLoadFile (Some "config.json"); OpWithEnv 3]
           serviceBuilder serviceAfterEnv testWorld serviceWorld).
  reflexivity.
Defined.

(** ** Log levels and the gorm logger *)

(** X15 (what the levels let through). Whatever the configured level and
    format, the handler of the gorm logger never handles a debug record;
    the level "silent" lets none of the four standard levels through; every
    level name other than "silent", "error" and "warn" lets info through;
    a record at a higher level than one that is let through is let through
    too; the handler is the JSON one exactly when the format is "json",
    the text one otherwise; and the level of a Log record is never below
    info either. *)
Theorem gorm_logger_levels (cfg : DB) :
  Enabled (NewGormLogger cfg) slog.LevelDebug = false /\
  h_level (NewGormLogger cfg) = DB_GetLogLevel cfg /\
  (LogLevel cfg = "silent" ->
   forall level, level <= slog.LevelError -> Enabled (NewGormLogger cfg) level = false) /\
  (LogLevel cfg <> "silent" -> LogLevel cfg <> "error" -> LogLevel cfg <> "warn" ->
   Enabled (NewGormLogger cfg) slog.LevelInfo = true) /\
  (forall l l', Enabled (NewGormLogger cfg) l = true -> l <= l' ->
                Enabled (NewGormLogger cfg) l' = true) /\
  (h_format (NewGormLogger cfg) = JSONHandler <-> LogFormat cfg = "json") /\
  (forall c : Log, slog.LevelInfo <= Log_GetLogLevel c).
Proof.
  assert (Hlevel : h_level (NewGormLogger cfg) = logLevel (LogLevel cfg)).
  { unfold NewGormLogger. destruct (String.eqb (LogFormat cfg) "json"); reflexivity. }
  assert (Hcases : logLevel (LogLevel cfg) = 99 \/ logLevel (LogLevel cfg) = 8 \/
                   logLevel (LogLevel cfg) = 4 \/ logLevel (LogLevel cfg) = 0).
  { unfold logLevel, slog.LevelError, slog.LevelWarn, slog.LevelInfo.
    repeat match goal with |- context [if ?c then _ else _] => destruct c end; auto. }
  unfold Enabled, slog.LevelDebug, slog.LevelError, slog.LevelInfo, DB_GetLogLevel in *.
  rewrite Hlevel.
  split; [destruct Hcases as [->|[->|[->| ->]]]; reflexivity|].
  split; [reflexivity|]. split; [|split; [|split]].
  - intros -> level Hle. change (logLevel "silent") with 99. lia.
  - intros Hs He Hw. unfold logLevel.
    destruct (String.eqb_spec (LogLevel cfg) "silent"); [contradiction|].
    destruct (String.eqb_spec (LogLevel cfg) "error"); [contradiction|].
    destruct (String.eqb_spec (LogLevel cfg) "warn"); [contradiction|].
    destruct (String.eqb (LogLevel cfg) "info" || String.eqb (LogLevel cfg) ""); reflexivity.
  - intros l l' Hl Hle. lia.
  - split.
    + unfold NewGormLogger. destruct (String.eqb_spec (LogFormat cfg) "json") as [Hj|Hj]; simpl.
      * split; auto.
      * split; [discriminate|contradiction].
    + intros c. unfold Log_GetLogLevel, logLevel, slog.LevelError, slog.LevelWarn, slog.LevelInfo.
      repeat match goal with |- context [if ?c then _ else _] => destruct c end; lia.
Qed.

Lemma gorm_logger_levels_witness :
  Enabled (NewGormLogger (mkDB "postgres://db" "silent" "JSON")) slog.LevelError = false.
Proof.
  apply (proj1 (proj2 (proj2 (gorm_logger_levels (mkDB "postgres://db" "silent" "JSON"))))).
  - reflexivity.
  - reflexivity.
Defined.

(** ** Roles and identities *)

(** X16 (roles). [Role.Validate] accepts the three role names, as they
    are written, and rejects every other string with an error that ends in
    the rejected role. *)
Theorem Role_Validate_accepts (r : auth.Role) :
  (auth.Role_Validate r = None <->
   r = auth.RoleAdmin \/ r = auth.RoleParticipant \/ r = auth.RoleAgent) /\
  (auth.Role_Validate r <> None ->
   auth.Role_Validate r = Some (ErrText ("invalid auth role: " +:+ r))).
Proof.
  unfold auth.Role_Validate.
  destruct (String.eqb_spec r auth.RoleAdmin) as [Ha|Ha]; simpl.
  { split; [split; auto|intros H; now contradiction H]. }
  destruct (String.eqb_spec r auth.RoleParticipant) as [Hp|Hp]; simpl.
  { split; [split; auto|intros H; now contradiction H]. }
  destruct (String.eqb_spec r auth.RoleAgent) as [Hg|Hg]; simpl.
  { split; [split; auto|intros H; now contradiction H]. }
  split; [|reflexivity].
  split; [discriminate|]. intros [H|[H|H]]; contradiction.
Qed.

Lemma Role_Validate_accepts_witness :
  auth.Role_Validate "Admin" = Some (ErrText ("invalid auth role: " +:+ "Admin")).
Proof.
  apply (proj2 (Role_Validate_accepts "Admin")). discriminate.
Defined.

(** X17 (identities). [Identity.Validate] succeeds exactly when a
    participant has a participant id and an agent has both a participant
    id and an agent id; it asks nothing of any other role, admin or
    unknown, and never looks at the identity's id or name. For an agent
    without either id, the missing participant id is the one reported. *)
Theorem Identity_Validate_requires (UUID : Type) (m : auth.Identity UUID) :
  (auth.Identity_Validate UUID m = None <->
   (auth.IdentityRole UUID m = auth.RoleParticipant ->
    is_Some (auth.ParticipantID UUID (auth.Scope UUID m))) /\
   (auth.IdentityRole UUID m = auth.RoleAgent ->
    is_Some (auth.ParticipantID UUID (auth.Scope UUID m)) /\
    is_Some (auth.AgentID UUID (auth.Scope UUID m)))) /\
  (auth.IdentityRole UUID m = auth.RoleAgent ->
   auth.ParticipantID UUID (auth.Scope UUID m) = None ->
   auth.Identity_Validate UUID m = Some (ErrText "agent role requires participant id")) /\
  (forall id name id' name',
     auth.Identity_Validate UUID
       (auth.mkIdentity UUID id name (auth.IdentityRole UUID m) (auth.Scope UUID m))
     = auth.Identity_Validate UUID
         (auth.mkIdentity UUID id' name' (auth.IdentityRole UUID m) (auth.Scope UUID m))).
Proof.
  unfold auth.Identity_Validate. split; [|split].
  - destruct (String.eqb_spec (auth.IdentityRole UUID m) auth.RoleParticipant) as [Hp|Hp].
    + assert (Hna : auth.IdentityRole UUID m <> auth.RoleAgent) by (rewrite Hp; discriminate).
      destruct (auth.ParticipantID UUID (auth.Scope UUID m)) as [u|]; split.
      * intros _. split; [eauto|contradiction].
      * reflexivity.
      * discriminate.
      * intros [H _]. destruct (H Hp) as [u Hu]. discriminate.
    + destruct (String.eqb_spec (auth.IdentityRole UUID m) auth.RoleAgent) as [Hg|Hg].
      * destruct (auth.ParticipantID UUID (auth.Scope UUID m)) as [u|];
          [destruct (auth.AgentID UUID (auth.Scope UUID m)) as [a|]|]; split;
          try reflexivity; try discriminate.
        -- intros _. split; [contradiction|eauto].
        -- intros [_ H]. destruct (H Hg) as [_ [a Ha]]. discriminate.
        -- intros [_ H]. destruct (H Hg) as [[u Hu] _]. discriminate.
      * split; [|reflexivity]. intros _. split; contradiction.
  - intros Hg Hnone. rewrite Hg, Hnone. reflexivity.
  - reflexivity.
Qed.

Lemma Identity_Validate_requires_witness :
  auth.Identity_Validate nat
    (auth.mkIdentity nat 7%nat "agent-7" auth.RoleAgent (auth.mkIdentityScope nat None None))
  = Some (ErrText "agent role requires participant id").
Proof.
  apply (proj1 (proj2 (Identity_Validate_requires nat _))); reflexivity.
Defined.

(** X18 (the environment overlay, twice). When [WithEnv] has run, running
    it again returns the same builder, record and error included, and
    leaves the environment as the first run left it. *)
Theorem WithEnv_twice (lib : Library) (fuel : nat) (b b1 : Builder) (w w1 : World) :
  WithEnv lib fuel b w = Some (b1, w1) ->
  exists w2, WithEnv lib fuel b1 w1 = Some (b1, w2) /\ w_env w2 = w_env w1.
Proof.
  intros Hrun. destruct (err b) as [e|] eqn:Hclean.
  - unfold WithEnv in Hrun. rewrite Hclean in Hrun. inversion Hrun; subst.
    exists w1. split; [|reflexivity]. unfold WithEnv. now rewrite Hclean.
  - apply WithEnv_clean_inv in Hrun; [|exact Hclean].
    destruct Hrun as (r & Hloc & Hb1).
    destruct r as [e|].
    + subst b1. exists w1. split; [reflexivity|reflexivity].
    + destruct (loadEnvToStruct lib (w_env w1) (envPrefix b) (envTag b) (config b))
        as [cfg [e|]] eqn:Hmap.
      * subst b1. exists w1. split; reflexivity.
      * subst b1.
        destruct (loadEnvFromAncestors_again (envFiles b) w w1 None fuel Hloc)
          as (w2 & Hloc2 & Henv2).
        exists w2. split; [|exact Henv2].
        unfold WithEnv. simpl. rewrite Hclean, Hloc2, Henv2.
        pose proof (loadEnvToStruct_again lib (w_env w1) (envPrefix b) (envTag b) (config b))
          as Hagain.
        rewrite Hmap in Hagain. simpl in Hagain. rewrite Hagain.
        unfold set_config. simpl. now rewrite Hclean.
Qed.

Lemma WithEnv_twice_witness :
  exists w2,
    WithEnv testLibrary 3 serviceAfterEnv serviceWorld = Some (serviceAfterEnv, w2) /\
    w_env w2 = w_env serviceWorld.
Proof.
  apply (WithEnv_twice testLibrary 3 serviceBuilder serviceAfterEnv testWorld serviceWorld).
  reflexivity.
Defined.
